(** * Agent lifecycle core of the Solana agentic wallet

    A shallow embedding of
    - [src/strategies/SimpleTraderStrategy.ts]  (the rule-based strategy),
    - [src/services/WalletManager.ts]           (the in-memory wallet ledger),
    - [src/services/DeFiClient.ts]              (the mocked swap executor),
    - [src/services/AgentController.ts]         (agent registry, timers, log),
    - the agent creation form ([AgentCreationModal.handleCreate]).

    JavaScript numbers are modelled as exact rationals [Q]: the properties
    below are about comparisons and control flow, and NaN / infinities are
    outside the model.  An absent ([undefined]) parameter is [None].
    Calls that leave the repository (the Solana SDK, the RPC connection, the
    clock, the random market generator) are inputs of the operations.
    Every operation, a decision cycle included, runs to completion before
    the next one starts: the single-threaded reading of the specification. *)

From Stdlib Require Import QArith Qminmax Qround Qabs Lqa.
From stdpp Require Import gmap strings list fin_maps pretty.

Local Open Scope string_scope.
Local Open Scope list_scope.

(** ** JavaScript numbers as rationals *)

Module JS.

(** [x < y] on numbers. *)
Definition ltb (x y : Q) : bool := negb (Qle_bool y x).

(** [x >= y] on numbers. *)
Definition geb (x y : Q) : bool := Qle_bool y x.

(** [x || d]: a number is falsy exactly when it is zero. *)
Definition or_else (x d : Q) : Q := if Qeq_bool x 0 then d else x.

(** [p || d] for a possibly absent property. *)
Definition opt_or_else (p : option Q) (d : Q) : Q :=
  match p with
  | Some x => or_else x d
  | None => d
  end.

End JS.

(** ** strategies/IStrategy.ts *)

Inductive Trend := Up | Down | Sideways.

Record MarketConditions := {
  timestamp : N;
  price : Q;
  volume : N;
  trend : Trend
}.

Inductive ActionType := Trade | Wait | Liquidity.
Inductive ActionKind := Buy | Sell | Add | Remove.

(** The [reason] template strings of the strategy, with the numbers they
    interpolate kept as data. *)
Inductive Reason :=
| InsufficientBalance (walletBalance minBalance : Q)
| PriceBelowBuyThreshold (price buyThreshold amount : Q)
| PriceAboveSellThreshold (price sellThreshold amount : Q)
| PriceWithinNormalRange (price buyThreshold sellThreshold : Q).

Record Details := {
  action : option ActionKind;
  amount : option Q;
  reason : Reason
}.

Record StrategyAction := {
  type : ActionType;
  details : Details
}.

(** ** types/index.ts *)

Inductive StrategyType := SimpleTrader | LiquidityProvider | Arbitrage.

(** [parameters: Record<string, any>], read at the three keys the strategy
    uses. *)
Record Parameters := {
  param_buyThreshold : option Q;
  param_sellThreshold : option Q;
  param_minBalance : option Q
}.

Record AgentStrategy := {
  strategy_type : StrategyType;
  parameters : Parameters
}.

(** ** strategies/SimpleTraderStrategy.ts *)

Inductive LastAction := LastBuy | LastSell | LastWait.

Definition LastAction_eqb (a b : LastAction) : bool :=
  match a, b with
  | LastBuy, LastBuy | LastSell, LastSell | LastWait, LastWait => true
  | _, _ => false
  end.

Record SimpleTraderStrategy := {
  buyThreshold : Q;
  sellThreshold : Q;
  minBalance : Q;
  lastAction : LastAction
}.

Definition no_parameters : Parameters :=
  {| param_buyThreshold := None; param_sellThreshold := None;
     param_minBalance := None |}.

(** The constructor: each field is [parameters.x || default]; [lastAction]
    starts as ["wait"]. *)
Definition new_SimpleTraderStrategy (p : Parameters) : SimpleTraderStrategy :=
  {| buyThreshold := JS.opt_or_else (param_buyThreshold p) 90;
     sellThreshold := JS.opt_or_else (param_sellThreshold p) 110;
     minBalance := JS.opt_or_else (param_minBalance p) (1#10);
     lastAction := LastWait |}.

Definition set_lastAction (this : SimpleTraderStrategy) (a : LastAction)
  : SimpleTraderStrategy :=
  {| buyThreshold := buyThreshold this;
     sellThreshold := sellThreshold this;
     minBalance := minBalance this;
     lastAction := a |}.

Definition wait_action (r : Reason) : StrategyAction :=
  {| type := Wait;
     details := {| action := None; amount := None; reason := r |} |}.

Definition trade_action (k : ActionKind) (a : Q) (r : Reason) : StrategyAction :=
  {| type := Trade;
     details := {| action := Some k; amount := Some a; reason := r |} |}.

(** [evaluate] returns the action together with the strategy instance after
    the call ([this.lastAction] is the only field it assigns). *)
Definition evaluate (this : SimpleTraderStrategy) (conditions : MarketConditions)
    (walletBalance : Q) : StrategyAction * SimpleTraderStrategy :=
  if JS.ltb walletBalance (minBalance this) then
    (wait_action (InsufficientBalance walletBalance (minBalance this)), this)
  else if JS.ltb (price conditions) (buyThreshold this)
          && negb (LastAction_eqb (lastAction this) LastBuy) then
    let amount := Qmin (walletBalance * (1#10)) (1#2) in
    (trade_action Buy amount
       (PriceBelowBuyThreshold (price conditions) (buyThreshold this) amount),
     set_lastAction this LastBuy)
  else if JS.ltb (sellThreshold this) (price conditions)
          && negb (LastAction_eqb (lastAction this) LastSell) then
    let amount := (1#10)%Q in
    (trade_action Sell amount
       (PriceAboveSellThreshold (price conditions) (sellThreshold this) amount),
     set_lastAction this LastSell)
  else
    (wait_action (PriceWithinNormalRange (price conditions)
                    (buyThreshold this) (sellThreshold this)),
     this).

Definition getConfig (this : SimpleTraderStrategy) : AgentStrategy :=
  {| strategy_type := SimpleTrader;
     parameters := {| param_buyThreshold := Some (buyThreshold this);
                      param_sellThreshold := Some (sellThreshold this);
                      param_minBalance := Some (minBalance this) |} |}.

(** The decision procedure as the specification words it: four steps tried
    in order, the buy step before the sell step. *)
Inductive decision_procedure (s : SimpleTraderStrategy) (tick : MarketConditions)
    (walletBalance : Q) : StrategyAction -> SimpleTraderStrategy -> Prop :=
| step1_insufficient_balance :
    (walletBalance < minBalance s)%Q ->
    decision_procedure s tick walletBalance
      (wait_action (InsufficientBalance walletBalance (minBalance s))) s
| step2_buy :
    ~ (walletBalance < minBalance s)%Q ->
    (price tick < buyThreshold s)%Q ->
    lastAction s <> LastBuy ->
    decision_procedure s tick walletBalance
      (trade_action Buy (Qmin (walletBalance * (1#10)) (1#2))
         (PriceBelowBuyThreshold (price tick) (buyThreshold s)
            (Qmin (walletBalance * (1#10)) (1#2))))
      (set_lastAction s LastBuy)
| step3_sell :
    ~ (walletBalance < minBalance s)%Q ->
    ~ ((price tick < buyThreshold s)%Q /\ lastAction s <> LastBuy) ->
    (sellThreshold s < price tick)%Q ->
    lastAction s <> LastSell ->
    decision_procedure s tick walletBalance
      (trade_action Sell (1#10)
         (PriceAboveSellThreshold (price tick) (sellThreshold s) (1#10)))
      (set_lastAction s LastSell)
| step4_wait :
    ~ (walletBalance < minBalance s)%Q ->
    ~ ((price tick < buyThreshold s)%Q /\ lastAction s <> LastBuy) ->
    ~ ((sellThreshold s < price tick)%Q /\ lastAction s <> LastSell) ->
    decision_procedure s tick walletBalance
      (wait_action (PriceWithinNormalRange (price tick)
                      (buyThreshold s) (sellThreshold s))) s.

(** ** Wallets, agents and activities (types/index.ts) *)

Record TokenBalance := {
  mint : string;
  token_amount : Q;
  decimals : N
}.

Record WalletInfo := {
  publicKey : string;
  createdAt : N;
  balance : Q;
  tokenBalances : list TokenBalance
}.

Inductive Status := Active | Paused | Stopped.

#[global] Instance Status_eq_dec : EqDecision Status.
Proof. solve_decision. Defined.

Definition Status_eqb (a b : Status) : bool :=
  match a, b with
  | Active, Active | Paused, Paused | Stopped, Stopped => true
  | _, _ => false
  end.

Inductive Result := Success | Failure.

(** The [decision] text of an activity: a rendered string, or a strategy
    reason template. *)
Inductive Decision :=
| Text (s : string)
| Because (r : Reason).

Record AgentActivity := {
  act_timestamp : N;
  act_action : string;
  decision : Decision;
  transactionSignature : option string;
  result : Result
}.

Record Agent := {
  agent_id : string;
  walletPublicKey : string;
  strategy : AgentStrategy;
  status : Status;
  activityLog : list AgentActivity
}.

(** ** Errors

    Every [Error] the modelled code throws, with the wrapping done by the
    [catch] blocks kept as structure; [message] renders [error.message]. *)
Inductive Error :=
| InvalidAccountsForSwap
| InsufficientSOLBalance
| WalletNotFound
| AgentNotFound (agentId : string)
| External (msg : string)
| FailedToConstructSwapInstruction (cause : Error)
| SwapExecutionFailed (cause : Error).

Fixpoint message (e : Error) : string :=
  match e with
  | InvalidAccountsForSwap => "Invalid accounts for swap"
  | InsufficientSOLBalance => "Insufficient SOL balance"
  | WalletNotFound => "Wallet not found"
  | AgentNotFound agentId => "Agent not found: " +:+ agentId
  | External msg => msg
  | FailedToConstructSwapInstruction cause =>
      "Failed to construct swap instruction: " +:+ message cause
  | SwapExecutionFailed cause => "Swap execution failed: " +:+ message cause
  end.

(** ** What the outside answers during one call

    The clock, the Solana SDK ([new PublicKey]), the RPC connection, the
    secure key store, the key generator and the random sources.  An answer
    [inl msg] is a rejection with an [Error] of that message. *)
Record Externals := {
  now : N;
  validPublicKey : string -> bool;
  latestBlockhash : string + string;
  chainBalance : string + Q;
  chainTokenBalances : string + list TokenBalance;
  marketTick : MarketConditions;
  generatedKey : string;
  storeKey : string + unit;
  randomSuffix : string
}.

(** ** The state of the three singletons and of the host's interval table *)
Record World := {
  wallets : gmap string WalletInfo;         (* walletManager.wallets *)
  agents : gmap string Agent;               (* agentController.agents *)
  activeAgentIds : list string;             (* a Set, in insertion order *)
  decisionIntervals : gmap string positive; (* agent id -> interval handle *)
  timers : gmap positive string;            (* live intervals: handle -> agent id *)
  nextHandle : positive
}.

Definition initial_world : World :=
  {| wallets := ∅; agents := ∅; activeAgentIds := []; decisionIntervals := ∅;
     timers := ∅; nextHandle := 1%positive |}.

Definition with_wallets (f : gmap string WalletInfo -> gmap string WalletInfo)
    (w : World) : World :=
  {| wallets := f (wallets w); agents := agents w;
     activeAgentIds := activeAgentIds w;
     decisionIntervals := decisionIntervals w; timers := timers w;
     nextHandle := nextHandle w |}.

Definition with_agents (f : gmap string Agent -> gmap string Agent)
    (w : World) : World :=
  {| wallets := wallets w; agents := f (agents w);
     activeAgentIds := activeAgentIds w;
     decisionIntervals := decisionIntervals w; timers := timers w;
     nextHandle := nextHandle w |}.

Definition with_activeAgentIds (f : list string -> list string)
    (w : World) : World :=
  {| wallets := wallets w; agents := agents w;
     activeAgentIds := f (activeAgentIds w);
     decisionIntervals := decisionIntervals w; timers := timers w;
     nextHandle := nextHandle w |}.

(** ** Exceptions and state: effects that precede a [throw] persist *)

Definition M (A : Type) : Type := World -> (Error + A) * World.

Definition ret {A} (x : A) : M A := fun w => (inr x, w).
Definition throw {A} (e : Error) : M A := fun w => (inl e, w).
Definition bind {A B} (m : M A) (k : A -> M B) : M B :=
  fun w => match m w with
           | (inr x, w') => k x w'
           | (inl e, w') => (inl e, w')
           end.
Definition try_catch {A} (m : M A) (handler : Error -> M A) : M A :=
  fun w => match m w with
           | (inl e, w') => handler e w'
           | (inr x, w') => (inr x, w')
           end.
Definition gets {A} (f : World -> A) : M A := fun w => (inr (f w), w).
Definition modify (f : World -> World) : M unit := fun w => (inr tt, f w).
Definition external {A} (r : string + A) : M A :=
  match r with
  | inl msg => throw (External msg)
  | inr x => ret x
  end.

#[global] Instance M_ret : MRet M := @ret.
#[global] Instance M_bind : MBind M := fun A B k m => bind m k.

(** [for (const x of xs) await f(x)] *)
Fixpoint for_each {A} (xs : list A) (f : A -> M unit) : M unit :=
  match xs with
  | [] => ret tt
  | x :: rest => _ ← f x; for_each rest f
  end.

(** ** services/WalletManager.ts *)

Definition set_balance (wallet : WalletInfo) (b : Q) : WalletInfo :=
  {| publicKey := publicKey wallet; createdAt := createdAt wallet;
     balance := b; tokenBalances := tokenBalances wallet |}.

Definition set_tokenBalances (wallet : WalletInfo) (tbs : list TokenBalance)
  : WalletInfo :=
  {| publicKey := publicKey wallet; createdAt := createdAt wallet;
     balance := balance wallet; tokenBalances := tbs |}.

Definition createWallet (ext : Externals) : M WalletInfo :=
  let publicKey := generatedKey ext in
  _ ← external (storeKey ext);
  let walletInfo :=
    {| publicKey := publicKey; createdAt := now ext; balance := 0;
       tokenBalances := [] |} in
  _ ← modify (with_wallets (insert publicKey walletInfo));
  ret walletInfo.

Definition getWallet (publicKey : string) : M (option WalletInfo) :=
  gets (fun w => wallets w !! publicKey).

Definition updateBalance (publicKey : string) (b : Q) : M unit :=
  wallet ← gets (fun w => wallets w !! publicKey);
  match wallet with
  | Some wallet => modify (with_wallets (insert publicKey (set_balance wallet b)))
  | None => ret tt
  end.

Definition updateTokenBalances (publicKey : string) (tbs : list TokenBalance)
  : M unit :=
  wallet ← gets (fun w => wallets w !! publicKey);
  match wallet with
  | Some wallet =>
      modify (with_wallets (insert publicKey (set_tokenBalances wallet tbs)))
  | None => ret tt
  end.

(** ** services/DeFiClient.ts *)

Record SwapParams := {
  fromToken : string;
  toToken : string;
  swap_amount : Q;
  slippage : Q
}.

(** The mock instruction: the signer key and the JSON payload. *)
Record TransactionInstruction := {
  signer : string;
  data : SwapParams
}.

(** [new PublicKey(s)] throws on a string that is not a key. *)
Definition new_PublicKey (ext : Externals) (s : string) : M string :=
  if validPublicKey ext s then ret s
  else throw (External "Invalid public key input").

Definition validateAccounts (walletPublicKey : string) (params : SwapParams)
  : M bool :=
  try_catch
    (wallet ← getWallet walletPublicKey;
     match wallet with
     | None => ret false
     | Some wallet =>
         if String.eqb (fromToken params) "SOL" then
           if JS.ltb (balance wallet) (swap_amount params)
           then throw InsufficientSOLBalance
           else ret true
         else ret true
     end)
    (fun _ => ret false).

Definition getWalletBalance (walletPublicKey : string) : M Q :=
  wallet ← getWallet walletPublicKey;
  ret match wallet with
      | Some wallet => JS.or_else (balance wallet) 0
      | None => 0%Q
      end.

Definition constructSwapInstruction (ext : Externals) (params : SwapParams)
    (walletPublicKey : string) : M TransactionInstruction :=
  try_catch
    (wallet ← new_PublicKey ext walletPublicKey;
     valid ← validateAccounts walletPublicKey params;
     if negb valid then throw InvalidAccountsForSwap
     else ret {| signer := wallet; data := params |})
    (fun error => throw (FailedToConstructSwapInstruction error)).

Definition updateBalancesAfterSwap (walletPublicKey : string)
    (params : SwapParams) (balanceBefore : Q) : M unit :=
  if String.eqb (fromToken params) "SOL" then
    let newBalance := (balanceBefore - swap_amount params)%Q in
    updateBalance walletPublicKey newBalance
  else ret tt.

Definition executeSwap (ext : Externals) (params : SwapParams)
    (walletPublicKey : string) : M string :=
  try_catch
    (balanceBefore ← getWalletBalance walletPublicKey;
     swapInstruction ← constructSwapInstruction ext params walletPublicKey;
     blockhash ← external (latestBlockhash ext);
     feePayer ← new_PublicKey ext walletPublicKey;
     let mockSignature := "mock_swap_" +:+ pretty (now ext) in
     _ ← updateBalancesAfterSwap walletPublicKey params balanceBefore;
     ret mockSignature)
    (fun error => throw (SwapExecutionFailed error)).

(** ** services/AgentController.ts *)

Definition set_status (agent : Agent) (s : Status) : Agent :=
  {| agent_id := agent_id agent; walletPublicKey := walletPublicKey agent;
     strategy := strategy agent; status := s;
     activityLog := activityLog agent |}.

Definition set_activityLog (agent : Agent) (log : list AgentActivity) : Agent :=
  {| agent_id := agent_id agent; walletPublicKey := walletPublicKey agent;
     strategy := strategy agent; status := status agent;
     activityLog := log |}.

(** [Set.add] and [Set.delete] on the insertion-ordered id set. *)
Definition set_add (x : string) (s : list string) : list string :=
  if bool_decide (x ∈ s) then s else s ++ [x].
Definition set_delete (x : string) (s : list string) : list string :=
  filter (fun y => y ≠ x) s.

(** [array.slice(-n)]: the last [n] elements, all of them when there are
    fewer. *)
Definition slice_last {A} (n : nat) (l : list A) : list A :=
  drop (length l - n) l.

(** [log.push(activity)], then [log = log.slice(-100)] when the length
    exceeds 100. *)
Definition push_capped (log : list AgentActivity) (activity : AgentActivity)
  : list AgentActivity :=
  let pushed := log ++ [activity] in
  if (100 <? length pushed)%nat then slice_last 100 pushed else pushed.

Definition logActivity (agentId : string) (activity : AgentActivity) : M unit :=
  agent ← gets (fun w => agents w !! agentId);
  match agent with
  | Some agent =>
      modify (with_agents
                (insert agentId
                   (set_activityLog agent
                      (push_capped (activityLog agent) activity))))
  | None => ret tt
  end.

Definition strategy_type_name (t : StrategyType) : string :=
  match t with
  | SimpleTrader => "simple-trader"
  | LiquidityProvider => "liquidity-provider"
  | Arbitrage => "arbitrage"
  end.

Definition new_agent_id (ext : Externals) : string :=
  "agent_" +:+ pretty (now ext) +:+ "_" +:+ randomSuffix ext.

Definition createAgent (ext : Externals) (strategy : AgentStrategy) : M Agent :=
  wallet ← createWallet ext;
  let agentId := new_agent_id ext in
  let agent :=
    {| agent_id := agentId; walletPublicKey := publicKey wallet;
       strategy := strategy; status := Stopped; activityLog := [] |} in
  _ ← modify (with_agents (insert agentId agent));
  _ ← logActivity agentId
        {| act_timestamp := now ext; act_action := "created";
           decision := Text ("Agent created with "
                             +:+ strategy_type_name (strategy_type strategy)
                             +:+ " strategy");
           transactionSignature := None; result := Success |};
  (* the returned object is the stored one, so it carries the log entry *)
  gets (fun w => default agent (agents w !! agentId)).

(** All three strategy kinds build a [SimpleTraderStrategy] from the
    configured parameters; the [default:] branch of the source is not
    reachable for a [type] of the declared union. *)
Definition createStrategyInstance (strategyConfig : AgentStrategy)
  : SimpleTraderStrategy :=
  match strategy_type strategyConfig with
  | SimpleTrader => new_SimpleTraderStrategy (parameters strategyConfig)
  | LiquidityProvider => new_SimpleTraderStrategy (parameters strategyConfig)
  | Arbitrage => new_SimpleTraderStrategy (parameters strategyConfig)
  end.

Definition executeTrade (ext : Externals) (walletPublicKey : string)
    (action : ActionKind) (amount : Q) : M string :=
  let is_buy := match action with Buy => true | _ => false end in
  executeSwap ext
    {| fromToken := if is_buy then "SOL" else "TOKEN";
       toToken := if is_buy then "TOKEN" else "SOL";
       swap_amount := amount; slippage := 1 |}
    walletPublicKey.

Definition updateWalletBalance (ext : Externals) (walletPublicKey : string)
  : M unit :=
  try_catch
    (balance ← external (chainBalance ext);
     tokenBalances ← external (chainTokenBalances ext);
     _ ← updateBalance walletPublicKey balance;
     updateTokenBalances walletPublicKey tokenBalances)
    (fun _ => ret tt).

Definition action_type_name (t : ActionType) : string :=
  match t with
  | Trade => "trade"
  | Wait => "wait"
  | Liquidity => "liquidity"
  end.

(** The guard [action.type === "trade" && action.details.action &&
    (action === "buy" || action === "sell")]. *)
Definition tradable (decided : StrategyAction) : option ActionKind :=
  match type decided, action (details decided) with
  | Trade, Some Buy => Some Buy
  | Trade, Some Sell => Some Sell
  | _, _ => None
  end.

Definition executeDecisionCycle (ext : Externals) (agentId : string) : M unit :=
  try_catch
    (agent ← gets (fun w => agents w !! agentId);
     match agent with
     | None => ret tt
     | Some agent =>
         if negb (Status_eqb (status agent) Active) then ret tt
         else
           wallet ← getWallet (walletPublicKey agent);
           match wallet with
           | None => throw WalletNotFound
           | Some wallet =>
               let marketConditions := marketTick ext in
               (* a new strategy instance on every cycle *)
               let strategy := createStrategyInstance (strategy agent) in
               let action :=
                 fst (evaluate strategy marketConditions (balance wallet)) in
               match tradable action with
               | Some kind =>
                   try_catch
                     (signature ← executeTrade ext (walletPublicKey agent) kind
                                    (JS.opt_or_else (amount (details action))
                                       (1#10));
                      _ ← logActivity agentId
                            {| act_timestamp := now ext;
                               act_action := action_type_name (type action);
                               decision := Because (reason (details action));
                               transactionSignature := Some signature;
                               result := Success |};
                      updateWalletBalance ext (walletPublicKey agent))
                     (fun error =>
                        logActivity agentId
                          {| act_timestamp := now ext;
                             act_action := action_type_name (type action);
                             decision := Text ("Trade failed: "
                                               +:+ message error);
                             transactionSignature := None;
                             result := Failure |})
               | None =>
                   logActivity agentId
                     {| act_timestamp := now ext;
                        act_action := action_type_name (type action);
                        decision := Because (reason (details action));
                        transactionSignature := None;
                        result := Success |}
               end
           end
     end)
    (fun error =>
       logActivity agentId
         {| act_timestamp := now ext; act_action := "error";
            decision := Text ("Decision cycle failed: " +:+ message error);
            transactionSignature := None; result := Failure |}).

(** [setInterval] hands out a new handle and records the callback's agent;
    the first cycle runs at once. *)
Definition startDecisionLoop (ext : Externals) (agentId : string) : M unit :=
  _ ← modify (fun w =>
        let interval := nextHandle w in
        {| wallets := wallets w; agents := agents w;
           activeAgentIds := activeAgentIds w;
           decisionIntervals := <[agentId := interval]> (decisionIntervals w);
           timers := <[interval := agentId]> (timers w);
           nextHandle := Pos.succ interval |});
  executeDecisionCycle ext agentId.

Definition startAgent (ext : Externals) (agentId : string) : M unit :=
  agent ← gets (fun w => agents w !! agentId);
  match agent with
  | None => throw (AgentNotFound agentId)
  | Some agent =>
      if Status_eqb (status agent) Active then ret tt
      else
        _ ← modify (with_activeAgentIds (set_add agentId));
        _ ← modify (with_agents (insert agentId (set_status agent Active)));
        _ ← logActivity agentId
              {| act_timestamp := now ext; act_action := "started";
                 decision :=
                   Text "Agent activated and beginning autonomous operations";
                 transactionSignature := None; result := Success |};
        startDecisionLoop ext agentId
  end.

(** [clearInterval(interval); decisionIntervals.delete(agentId)] when the
    agent has an interval. *)
Definition clearDecisionInterval (agentId : string) (w : World) : World :=
  match decisionIntervals w !! agentId with
  | Some interval =>
      {| wallets := wallets w; agents := agents w;
         activeAgentIds := activeAgentIds w;
         decisionIntervals := delete agentId (decisionIntervals w);
         timers := delete interval (timers w);
         nextHandle := nextHandle w |}
  | None => w
  end.

Definition stopAgent (ext : Externals) (agentId : string) : M unit :=
  agent ← gets (fun w => agents w !! agentId);
  match agent with
  | None => throw (AgentNotFound agentId)
  | Some agent =>
      _ ← modify (clearDecisionInterval agentId);
      _ ← modify (with_activeAgentIds (set_delete agentId));
      _ ← modify (with_agents (insert agentId (set_status agent Stopped)));
      logActivity agentId
        {| act_timestamp := now ext; act_action := "stopped";
           decision := Text "Agent deactivated";
           transactionSignature := None; result := Success |}
  end.

Definition stopAllAgents (ext : Externals) : M unit :=
  activeIds ← gets activeAgentIds;
  for_each activeIds (stopAgent ext).

Definition getAgent (agentId : string) : M (option Agent) :=
  gets (fun w => agents w !! agentId).

Definition deleteAgent (ext : Externals) (agentId : string) : M unit :=
  active ← gets (fun w => bool_decide (agentId ∈ activeAgentIds w));
  _ ← (if active : bool then stopAgent ext agentId else ret tt : M unit);
  modify (with_agents (delete agentId)).

(** ** The agent creation form ([AgentCreationModal.handleCreate])

    The three text fields arrive as [parseFloat] left them: [None] is NaN.
    The form either shows an alert and returns, or hands the strategy to
    [onCreateAgent]. *)
Inductive FormOutcome :=
| Alert (title body : string)
| Submit (strategy : AgentStrategy).

Definition handleCreate (selectedStrategy : StrategyType)
    (buyThresholdNum sellThresholdNum minBalanceNum : option Q) : FormOutcome :=
  match buyThresholdNum, sellThresholdNum, minBalanceNum with
  | Some buyThresholdNum, Some sellThresholdNum, Some minBalanceNum =>
      if JS.geb buyThresholdNum sellThresholdNum then
        Alert "Invalid Input" "Buy threshold must be less than sell threshold"
      else if JS.ltb minBalanceNum 0 then
        Alert "Invalid Input" "Minimum balance must be positive"
      else
        Submit {| strategy_type := selectedStrategy;
                  parameters :=
                    {| param_buyThreshold := Some buyThresholdNum;
                       param_sellThreshold := Some sellThresholdNum;
                       param_minBalance := Some minBalanceNum |} |}
  | _, _, _ =>
      Alert "Invalid Input" "Please enter valid numbers for all parameters"
  end.

(** ** Runs of the controller

    The operations a caller, the interval table or a balance refresh
    ([WalletContext.refreshBalance], the same ledger writes as
    [updateWalletBalance]) can perform. *)
Inductive Op :=
| CreateAgent (strategy : AgentStrategy)
| StartAgent (agentId : string)
| StopAgent (agentId : string)
| StopAllAgents
| DeleteAgent (agentId : string)
| DecisionCycle (agentId : string)
| RefreshBalance (publicKey : string).

Definition perform (ext : Externals) (op : Op) : M unit :=
  match op with
  | CreateAgent strategy => _ ← createAgent ext strategy; ret tt
  | StartAgent agentId => startAgent ext agentId
  | StopAgent agentId => stopAgent ext agentId
  | StopAllAgents => stopAllAgents ext
  | DeleteAgent agentId => deleteAgent ext agentId
  | DecisionCycle agentId => executeDecisionCycle ext agentId
  | RefreshBalance publicKey => updateWalletBalance ext publicKey
  end.

(** Generated agent ids are unique: [createAgent] never draws the id of a
    registered agent. *)
Definition id_is_fresh (w : World) (ext : Externals) (op : Op) : Prop :=
  match op with
  | CreateAgent _ => agents w !! new_agent_id ext = None
  | _ => True
  end.

Inductive reachable : World -> Prop :=
| reachable_initial : reachable initial_world
| reachable_step w ext op :
    reachable w -> id_is_fresh w ext op -> reachable (snd (perform ext op w)).

(** Running a script of operations, each with its own outside answers. *)
Fixpoint run (script : list (Externals * Op)) (w : World) : World :=
  match script with
  | [] => w
  | (ext, op) :: rest => run rest (snd (perform ext op w))
  end.

(** ** A concrete outside, for examples *)

Definition tick_at (p : Q) : MarketConditions :=
  {| timestamp := 0; price := p; volume := 1000; trend := Sideways |}.

(** The RPC is up, the single key ["Wallet1"] is generated, the chain holds
    [onchain] SOL, the clock reads [t] and the market trades at [p]. *)
Definition outside (t : N) (p onchain : Q) : Externals :=
  {| now := t;
     validPublicKey := fun s => negb (String.eqb s "");
     latestBlockhash := inr "blockhash";
     chainBalance := inr onchain;
     chainTokenBalances := inr [];
     marketTick := tick_at p;
     generatedKey := "Wallet1";
     storeKey := inr tt;
     randomSuffix := "abc" |}.

Definition default_strategy : AgentStrategy :=
  {| strategy_type := SimpleTrader; parameters := no_parameters |}.

Definition log_of (w : World) (agentId : string) : list AgentActivity :=
  match agents w !! agentId with
  | Some agent => activityLog agent
  | None => []
  end.

(** One agent with the default strategy, its wallet refreshed to 1 SOL. *)
Definition funded_world : World :=
  run [(outside 1 100 1, CreateAgent default_strategy);
       (outside 2 100 1, RefreshBalance "Wallet1")] initial_world.

(** [n] timer firings for one agent in a quiet market (price 100). *)
Definition cycles (n : nat) (agentId : string) : list (Externals * Op) :=
  map (fun i => (outside (N.of_nat i + 10) 100 1, DecisionCycle agentId))
      (seq 0 n).

(** The funded agent started and left running for 120 cycles. *)
Definition busy_world : World :=
  run ((outside 3 100 1, StartAgent "agent_1_abc") :: cycles 120 "agent_1_abc")
      funded_world.

Definition no_agent : Agent :=
  {| agent_id := ""; walletPublicKey := ""; strategy := default_strategy;
     status := Stopped; activityLog := [] |}.

Definition agent_of (w : World) (agentId : string) : Agent :=
  default no_agent (agents w !! agentId).

(** Three ids in the active set, the second without a registered agent. *)
Definition active_agent (agentId : string) : Agent :=
  {| agent_id := agentId; walletPublicKey := "Wallet1";
     strategy := default_strategy; status := Active; activityLog := [] |}.


(** ** The control projection of a world and its consistency *)

Record Ctrl := {
  c_status : gmap string Status;
  c_active : list string;
  c_intervals : gmap string positive;
  c_timers : gmap positive string;
  c_next : positive
}.

Definition ctrl (w : World) : Ctrl :=
  {| c_status := status <$> agents w;
     c_active := activeAgentIds w;
     c_intervals := decisionIntervals w;
     c_timers := timers w;
     c_next := nextHandle w |}.

Definition consistent (c : Ctrl) : Prop :=
  (forall id, id ∈ c_active c <-> c_status c !! id = Some Active) /\
  (forall id, is_Some (c_intervals c !! id) <-> id ∈ c_active c) /\
  (forall id h, c_intervals c !! id = Some h <-> c_timers c !! h = Some id) /\
  (forall h id, c_timers c !! h = Some id -> (h < c_next c)%positive).

Definition logs_bounded (w : World) : Prop :=
  forall id a, agents w !! id = Some a -> length (activityLog a) <= 100.

(** A computation keeps a property of the world, whatever it returns. *)
Definition preserves {A} (I : World -> Prop) (m : M A) : Prop :=
  forall w, I w -> I (snd (m w)).

(** The accounts check of a swap fails: no such wallet, or SOL is sold
    (a buy) and the balance is short. *)
Definition accounts_invalid (w : World) (walletPublicKey : string)
    (params : SwapParams) : Prop :=
  wallets w !! walletPublicKey = None \/
  (fromToken params = "SOL" /\
   exists wallet, wallets w !! walletPublicKey = Some wallet /\
                  (balance wallet < swap_amount params)%Q).

Definition invalid_accounts_error : Error :=
  SwapExecutionFailed (FailedToConstructSwapInstruction InvalidAccountsForSwap).

(** The accounts check as [validateAccounts] computes it. *)
Definition accounts_ok (w : World) (walletPublicKey : string)
    (params : SwapParams) : bool :=
  match wallets w !! walletPublicKey with
  | None => false
  | Some wallet =>
      if String.eqb (fromToken params) "SOL"
      then negb (JS.ltb (balance wallet) (swap_amount params))
      else true
  end.

(** What [getWalletBalance] reads: [wallet?.balance || 0]. *)
Definition balance_before (w : World) (walletPublicKey : string) : Q :=
  match wallets w !! walletPublicKey with
  | Some wallet => JS.or_else (balance wallet) 0
  | None => 0%Q
  end.

(** The controller seen through its control projection: what starting and
    stopping an agent do to statuses, the active set and the intervals. *)
Definition ctrl_start (id : string) (c : Ctrl) : Ctrl :=
  {| c_status := <[id := Active]> (c_status c);
     c_active := set_add id (c_active c);
     c_intervals := <[id := c_next c]> (c_intervals c);
     c_timers := <[c_next c := id]> (c_timers c);
     c_next := Pos.succ (c_next c) |}.

Definition ctrl_stop (id : string) (c : Ctrl) : Ctrl :=
  {| c_status := <[id := Stopped]> (c_status c);
     c_active := set_delete id (c_active c);
     c_intervals := delete id (c_intervals c);
     c_timers := match c_intervals c !! id with
                 | Some h => delete h (c_timers c)
                 | None => c_timers c
                 end;
     c_next := c_next c |}.

Definition ctrl_register (id : string) (c : Ctrl) : Ctrl :=
  {| c_status := <[id := Stopped]> (c_status c);
     c_active := c_active c; c_intervals := c_intervals c;
     c_timers := c_timers c; c_next := c_next c |}.

Definition ctrl_forget (id : string) (c : Ctrl) : Ctrl :=
  {| c_status := delete id (c_status c);
     c_active := c_active c; c_intervals := c_intervals c;
     c_timers := c_timers c; c_next := c_next c |}.

(** ** Further parts of the sources *)

(** [Math.round] and [Math.floor] on numbers. *)
Module JSMath.

Definition floor (x : Q) : Z := Qfloor x.
Definition round (x : Q) : Z := Qfloor (x + (1#2)).

End JSMath.

(** *** strategies/SimpleTraderStrategy.ts: one instance, many evaluations *)

(** The actions one strategy instance returns for a series of ticks and
    balances, [this.lastAction] carried from call to call. *)
Fixpoint evaluate_all (this : SimpleTraderStrategy)
    (inputs : list (MarketConditions * Q)) : list StrategyAction :=
  match inputs with
  | [] => []
  | (conditions, walletBalance) :: rest =>
      let r := evaluate this conditions walletBalance in
      fst r :: evaluate_all (snd r) rest
  end.

(** *** strategies/MarketDataGenerator.ts *)

Record MarketDataGenerator := {
  basePrice : Q;
  currentPrice : Q;
  volatility : Q;
  trendStrength : Q;
  currentTrend : Trend;
  trendDuration : Z;
  maxTrendDuration : Z
}.

(** The singleton as constructed. *)
Definition marketDataGenerator : MarketDataGenerator :=
  {| basePrice := 100; currentPrice := 100; volatility := 5#100;
     trendStrength := 2#100; currentTrend := Sideways; trendDuration := 0;
     maxTrendDuration := 10 |}.

(** What [Math.random()] returns at the four call sites of one
    [generateNext]: the trend and its duration (drawn only when the trend is
    resampled), the price move, the volume. *)
Record Draws := {
  draw_trend : Q;
  draw_duration : Q;
  draw_price : Q;
  draw_volume : Q
}.

Definition in_unit_interval (r : Q) : Prop := (0 <= r)%Q /\ (r < 1)%Q.

Definition updateTrend (d : Draws) (g : MarketDataGenerator)
  : MarketDataGenerator :=
  let rand := draw_trend d in
  {| basePrice := basePrice g; currentPrice := currentPrice g;
     volatility := volatility g; trendStrength := trendStrength g;
     currentTrend := if JS.ltb rand (33#100) then Up
                     else if JS.ltb rand (66#100) then Down
                     else Sideways;
     trendDuration := trendDuration g;
     maxTrendDuration := (JSMath.floor (draw_duration d * 10) + 5)%Z |}.

Definition set_trendDuration (g : MarketDataGenerator) (n : Z)
  : MarketDataGenerator :=
  {| basePrice := basePrice g; currentPrice := currentPrice g;
     volatility := volatility g; trendStrength := trendStrength g;
     currentTrend := currentTrend g; trendDuration := n;
     maxTrendDuration := maxTrendDuration g |}.

Definition set_currentPrice (g : MarketDataGenerator) (p : Q)
  : MarketDataGenerator :=
  {| basePrice := basePrice g; currentPrice := p;
     volatility := volatility g; trendStrength := trendStrength g;
     currentTrend := currentTrend g; trendDuration := trendDuration g;
     maxTrendDuration := maxTrendDuration g |}.

Definition generateNext (date : N) (d : Draws) (g : MarketDataGenerator)
  : MarketConditions * MarketDataGenerator :=
  let g := set_trendDuration g (trendDuration g + 1) in
  let g := if (maxTrendDuration g <=? trendDuration g)%Z
           then set_trendDuration (updateTrend d g) 0
           else g in
  let priceChange :=
    match currentTrend g with
    | Up => (trendStrength g + draw_price d * volatility g)%Q
    | Down => (- trendStrength g - draw_price d * volatility g)%Q
    | Sideways => ((draw_price d - (1#2)) * volatility g * 2)%Q
    end in
  let g := set_currentPrice g (currentPrice g * (1 + priceChange)) in
  let g := set_currentPrice g (Qmax 50 (Qmin 150 (currentPrice g))) in
  let volume := (JSMath.floor (draw_volume d * 9000) + 1000)%Z in
  ({| timestamp := date;
      price := inject_Z (JSMath.round (currentPrice g * 100)) / 100;
      volume := Z.to_N volume;
      trend := currentTrend g |}, g).

Definition reset (g : MarketDataGenerator) : MarketDataGenerator :=
  {| basePrice := basePrice g; currentPrice := basePrice g;
     volatility := volatility g; trendStrength := trendStrength g;
     currentTrend := Sideways; trendDuration := 0;
     maxTrendDuration := maxTrendDuration g |}.

Definition getCurrentPrice (g : MarketDataGenerator) : Q := currentPrice g.

Definition setVolatility (v : Q) (g : MarketDataGenerator)
  : MarketDataGenerator :=
  {| basePrice := basePrice g; currentPrice := currentPrice g;
     volatility := Qmax 0 (Qmin 1 v); trendStrength := trendStrength g;
     currentTrend := currentTrend g; trendDuration := trendDuration g;
     maxTrendDuration := maxTrendDuration g |}.

(** The generator's state is in range: the price within [50, 150] and the
    trend countdown below its limit, which is at most 14. *)
Definition generator_in_range (g : MarketDataGenerator) : Prop :=
  (50 <= currentPrice g)%Q /\ (currentPrice g <= 150)%Q /\
  (0 <= trendDuration g < maxTrendDuration g)%Z /\
  (maxTrendDuration g <= 14)%Z.

(** A series of ticks, each with its own draws. *)
Fixpoint generate_all (inputs : list (N * Draws)) (g : MarketDataGenerator)
  : list MarketConditions * MarketDataGenerator :=
  match inputs with
  | [] => ([], g)
  | (date, d) :: rest =>
      let r := generateNext date d g in
      let rs := generate_all rest (snd r) in
      (fst r :: fst rs, snd rs)
  end.

(** *** services/WalletManager.ts: deleting a wallet *)

(** [deleteWallet]: the key store is asked first ([deleteKey] is its
    answer); the ledger entry goes only when it agreed. *)
Definition deleteWallet (deleteKey : string + unit) (publicKey : string)
  : M unit :=
  _ ← external deleteKey;
  modify (with_wallets (delete publicKey)).

(** *** services/DeFiClient.ts: what an error was caused by *)

Fixpoint caused_by_insufficient_balance (e : Error) : bool :=
  match e with
  | InsufficientSOLBalance => true
  | FailedToConstructSwapInstruction cause => caused_by_insufficient_balance cause
  | SwapExecutionFailed cause => caused_by_insufficient_balance cause
  | _ => false
  end.

(** *** contexts/AgentContext.tsx: the reducer *)

Record AgentState := {
  ui_agents : list Agent;
  ui_activeAgentIds : list string;
  loading : bool;
  error : option string
}.

Inductive AgentAction :=
| SET_AGENTS (payload : list Agent)
| ADD_AGENT (payload : Agent)
| UPDATE_AGENT (payload : Agent)
| REMOVE_AGENT (payload : string)
| SET_ACTIVE_AGENTS (payload : list string)
| LOG_ACTIVITY (agentId : string) (activity : AgentActivity)
| SET_LOADING (payload : bool)
| SET_ERROR (payload : option string)
| CLEAR_ERROR.

Definition with_ui_agents (f : list Agent -> list Agent) (state : AgentState)
  : AgentState :=
  {| ui_agents := f (ui_agents state);
     ui_activeAgentIds := ui_activeAgentIds state;
     loading := loading state; error := error state |}.

Definition agentReducer (state : AgentState) (a : AgentAction) : AgentState :=
  match a with
  | SET_AGENTS payload => with_ui_agents (fun _ => payload) state
  | ADD_AGENT payload => with_ui_agents (fun agents => agents ++ [payload]) state
  | UPDATE_AGENT payload =>
      with_ui_agents
        (map (fun a => if String.eqb (agent_id a) (agent_id payload)
                       then payload else a)) state
  | REMOVE_AGENT payload =>
      with_ui_agents
        (filter (fun a => agent_id a ≠ payload)) state
  | SET_ACTIVE_AGENTS payload =>
      {| ui_agents := ui_agents state; ui_activeAgentIds := payload;
         loading := loading state; error := error state |}
  | LOG_ACTIVITY agentId activity =>
      with_ui_agents
        (map (fun a => if String.eqb (agent_id a) agentId
                       then set_activityLog a (activityLog a ++ [activity])
                       else a)) state
  | SET_LOADING payload =>
      {| ui_agents := ui_agents state;
         ui_activeAgentIds := ui_activeAgentIds state;
         loading := payload; error := error state |}
  | SET_ERROR payload =>
      {| ui_agents := ui_agents state;
         ui_activeAgentIds := ui_activeAgentIds state;
         loading := loading state; error := payload |}
  | CLEAR_ERROR =>
      {| ui_agents := ui_agents state;
         ui_activeAgentIds := ui_activeAgentIds state;
         loading := loading state; error := None |}
  end.

(** *** Keys and references of the registry and the ledger *)

(** Every wallet is stored under its own public key, every agent under its
    own id, and every agent's wallet is in the ledger. *)
Definition well_keyed (w : World) : Prop :=
  (forall pk wallet, wallets w !! pk = Some wallet -> publicKey wallet = pk) /\
  (forall id a, agents w !! id = Some a ->
     agent_id a = id /\ is_Some (wallets w !! walletPublicKey a)).

(** The wallet ["Wallet1"] of a world, for examples. *)
Definition agent_wallet (w : World) : WalletInfo :=
  default {| publicKey := ""; createdAt := 0; balance := 0;
             tokenBalances := [] |} (wallets w !! "Wallet1").

(** *** The entries a decision cycle writes *)

(** The world with one more entry in the log of the registered agent [a]. *)
Definition with_entry (agentId : string) (a : Agent) (entry : AgentActivity)
    (w : World) : World :=
  with_agents
    (insert agentId
       (set_activityLog a (push_capped (activityLog a) entry))) w.

Definition error_entry (ext : Externals) (e : Error) : AgentActivity :=
  {| act_timestamp := now ext; act_action := "error";
     decision := Text ("Decision cycle failed: " +:+ message e);
     transactionSignature := None; result := Failure |}.

Definition decision_entry (ext : Externals) (decided : StrategyAction)
    (signature : option string) : AgentActivity :=
  {| act_timestamp := now ext;
     act_action := action_type_name (type decided);
     decision := Because (reason (details decided));
     transactionSignature := signature; result := Success |}.

Definition failed_trade_entry (ext : Externals) (decided : StrategyAction)
    (e : Error) : AgentActivity :=
  {| act_timestamp := now ext;
     act_action := action_type_name (type decided);
     decision := Text ("Trade failed: " +:+ message e);
     transactionSignature := None; result := Failure |}.

(** What the strategy of agent [a] decides in a cycle for a wallet. *)
Definition decided_action (ext : Externals) (a : Agent) (wallet : WalletInfo)
  : StrategyAction :=
  fst (evaluate (createStrategyInstance (strategy a)) (marketTick ext)
         (balance wallet)).

(** *** The entries the lifecycle operations write *)

Definition started_entry (ext : Externals) : AgentActivity :=
  {| act_timestamp := now ext; act_action := "started";
     decision := Text "Agent activated and beginning autonomous operations";
     transactionSignature := None; result := Success |}.

Definition stopped_entry (ext : Externals) : AgentActivity :=
  {| act_timestamp := now ext; act_action := "stopped";
     decision := Text "Agent deactivated";
     transactionSignature := None; result := Success |}.

Definition created_entry (ext : Externals) (cfg : AgentStrategy)
  : AgentActivity :=
  {| act_timestamp := now ext; act_action := "created";
     decision := Text ("Agent created with "
                       +:+ strategy_type_name (strategy_type cfg)
                       +:+ " strategy");
     transactionSignature := None; result := Success |}.

(** The funded agent just started, its first cycle run at price 85. *)
Definition started_world : World :=
  snd (startAgent (outside 3 85 1) "agent_1_abc" funded_world).

(** * Facts about the embedding *)

Lemma JS_ltb_lt x y : JS.ltb x y = true <-> (x < y)%Q.
Proof.
  unfold JS.ltb. rewrite negb_true_iff. split.
  - intros H. apply Qnot_le_lt. intros Hle.
    apply Qle_bool_iff in Hle. congruence.
  - intros H. destruct (Qle_bool y x) eqn:E; [|reflexivity].
    apply Qle_bool_iff in E. exfalso. exact (Qlt_not_le _ _ H E).
Qed.

Lemma JS_ltb_ge x y : JS.ltb x y = false <-> (y <= x)%Q.
Proof. unfold JS.ltb. rewrite negb_false_iff. apply Qle_bool_iff. Qed.

Lemma JS_ltb_not_lt x y : JS.ltb x y = false <-> ~ (x < y)%Q.
Proof.
  rewrite JS_ltb_ge. split.
  - intros H1 H2. exact (Qlt_not_le _ _ H2 H1).
  - apply Qnot_lt_le.
Qed.

Lemma JS_geb_ge x y : JS.geb x y = true <-> (y <= x)%Q.
Proof. apply Qle_bool_iff. Qed.

Lemma JS_or_else_zero x : (JS.or_else x 0 == x)%Q.
Proof.
  unfold JS.or_else. destruct (Qeq_bool x 0) eqn:E; [|reflexivity].
  apply Qeq_bool_iff in E. symmetry. exact E.
Qed.

Lemma LastAction_eqb_eq a b : LastAction_eqb a b = true <-> a = b.
Proof. destruct a, b; simpl; split; intros H; congruence. Qed.

Lemma LastAction_eqb_neq a b : LastAction_eqb a b = false <-> a <> b.
Proof. destruct a, b; simpl; split; intros H; congruence. Qed.

(** ** The strategy *)

(** The guard of the buy branch, as a proposition. *)
Lemma buy_guard s tick :
  JS.ltb (price tick) (buyThreshold s)
    && negb (LastAction_eqb (lastAction s) LastBuy) = true
  <-> (price tick < buyThreshold s)%Q /\ lastAction s <> LastBuy.
Proof.
  rewrite andb_true_iff, negb_true_iff, JS_ltb_lt, LastAction_eqb_neq.
  reflexivity.
Qed.

Lemma sell_guard s tick :
  JS.ltb (sellThreshold s) (price tick)
    && negb (LastAction_eqb (lastAction s) LastSell) = true
  <-> (sellThreshold s < price tick)%Q /\ lastAction s <> LastSell.
Proof.
  rewrite andb_true_iff, negb_true_iff, JS_ltb_lt, LastAction_eqb_neq.
  reflexivity.
Qed.

Lemma guard_false (b : bool) (P : Prop) : (b = true <-> P) -> b = false <-> ~ P.
Proof. destruct b; intuition congruence. Qed.

Lemma evaluate_sound s tick walletBalance :
  decision_procedure s tick walletBalance
    (fst (evaluate s tick walletBalance)) (snd (evaluate s tick walletBalance)).
Proof.
  unfold evaluate.
  destruct (JS.ltb walletBalance (minBalance s)) eqn:Hbal.
  { apply step1_insufficient_balance. by apply JS_ltb_lt. }
  apply JS_ltb_not_lt in Hbal.
  destruct (JS.ltb (price tick) (buyThreshold s)
            && negb (LastAction_eqb (lastAction s) LastBuy)) eqn:Hbuy.
  { apply buy_guard in Hbuy as [? ?]. by apply step2_buy. }
  apply (guard_false _ _ (buy_guard s tick)) in Hbuy.
  destruct (JS.ltb (sellThreshold s) (price tick)
            && negb (LastAction_eqb (lastAction s) LastSell)) eqn:Hsell.
  { apply sell_guard in Hsell as [? ?]. by apply step3_sell. }
  apply (guard_false _ _ (sell_guard s tick)) in Hsell.
  by apply step4_wait.
Qed.

Lemma decision_procedure_functional s tick walletBalance a1 s1 a2 s2 :
  decision_procedure s tick walletBalance a1 s1 ->
  decision_procedure s tick walletBalance a2 s2 ->
  a1 = a2 /\ s1 = s2.
Proof.
  intros H1 H2. destruct H1; inversion H2; subst; try done; tauto.
Qed.

(** C8. [evaluate] is the four-step decision procedure of the specification:
    (1) a balance below [minBalance] waits, citing the insufficient balance,
    whatever the price; (2) otherwise a price below [buyThreshold] with last
    action other than buy buys min(10% of the balance, 0.5); (3) otherwise a
    price above [sellThreshold] with last action other than sell sells
    exactly 0.1; (4) otherwise it waits, citing the normal range.  The
    procedure relates a strategy, tick and balance to an action and next
    strategy exactly when [evaluate] returns them. *)
Theorem evaluate_is_decision_procedure s tick walletBalance a s' :
  decision_procedure s tick walletBalance a s'
  <-> evaluate s tick walletBalance = (a, s').
Proof.
  split.
  - intros H.
    destruct (decision_procedure_functional _ _ _ _ _ _ _ H
                (evaluate_sound s tick walletBalance)) as [-> ->].
    by destruct (evaluate s tick walletBalance).
  - intros H. pose proof (evaluate_sound s tick walletBalance) as Hs.
    by rewrite H in Hs.
Qed.

(** The scenarios of the specification, evaluated. *)
Example scenario_buy_at_85 :
  fst (evaluate (new_SimpleTraderStrategy no_parameters) (tick_at 85) 1)
  = trade_action Buy (Qmin (1 * (1#10)) (1#2))
      (PriceBelowBuyThreshold 85 90 (Qmin (1 * (1#10)) (1#2)))
  /\ (Qmin (1 * (1#10)) (1#2) == 1#10)%Q.
Proof. split; reflexivity. Qed.

Example scenario_sell_at_115 :
  fst (evaluate (new_SimpleTraderStrategy no_parameters) (tick_at 115) 1)
  = trade_action Sell (1#10) (PriceAboveSellThreshold 115 110 (1#10)).
Proof. reflexivity. Qed.

Example scenario_wait_on_low_balance :
  fst (evaluate (new_SimpleTraderStrategy no_parameters) (tick_at 85) (5#100))
  = wait_action (InsufficientBalance (5#100) (1#10)).
Proof. reflexivity. Qed.

(** On one strategy instance the debounce works: a buy is followed by a
    wait when the price is still low. *)
Lemma same_instance_debounces s tick1 tick2 b1 b2 a s' :
  evaluate s tick1 b1 = (a, s') ->
  action (details a) = Some Buy ->
  action (details (fst (evaluate s' tick2 b2))) <> Some Buy.
Proof.
  unfold evaluate. intros H Hbuy.
  assert (lastAction s' = LastBuy) as Hlast.
  { repeat case_match; simplify_eq; simpl in *; done. }
  rewrite Hlast. simpl. rewrite andb_false_r.
  repeat case_match; simpl; done.
Qed.

(** C10. A strategy parameter explicitly set to 0 is replaced by the
    documented default (90, 110, 0.1), as the defaults are applied with
    [||]: the strategy built from an explicit 0 is the one built from an
    absent parameter, so [minBalance = 0] still makes every balance below
    0.1 wait for insufficient balance. *)
Theorem explicit_zero_is_default b s m :
  new_SimpleTraderStrategy
    {| param_buyThreshold := Some 0%Q; param_sellThreshold := s;
       param_minBalance := m |}
  = new_SimpleTraderStrategy
      {| param_buyThreshold := None; param_sellThreshold := s;
         param_minBalance := m |}
  /\ new_SimpleTraderStrategy
       {| param_buyThreshold := b; param_sellThreshold := Some 0%Q;
          param_minBalance := m |}
     = new_SimpleTraderStrategy
         {| param_buyThreshold := b; param_sellThreshold := None;
            param_minBalance := m |}
  /\ new_SimpleTraderStrategy
       {| param_buyThreshold := b; param_sellThreshold := s;
          param_minBalance := Some 0%Q |}
     = new_SimpleTraderStrategy
         {| param_buyThreshold := b; param_sellThreshold := s;
            param_minBalance := None |}
  /\ buyThreshold (new_SimpleTraderStrategy
       {| param_buyThreshold := Some 0%Q; param_sellThreshold := s;
          param_minBalance := m |}) = 90%Q
  /\ sellThreshold (new_SimpleTraderStrategy
       {| param_buyThreshold := b; param_sellThreshold := Some 0%Q;
          param_minBalance := m |}) = 110%Q
  /\ minBalance (new_SimpleTraderStrategy
       {| param_buyThreshold := b; param_sellThreshold := s;
          param_minBalance := Some 0%Q |}) = (1#10)%Q
  /\ forall tick walletBalance,
       (walletBalance < 1#10)%Q ->
       fst (evaluate
              (new_SimpleTraderStrategy
                 {| param_buyThreshold := b; param_sellThreshold := s;
                    param_minBalance := Some 0%Q |})
              tick walletBalance)
       = wait_action (InsufficientBalance walletBalance (1#10)).
Proof.
  repeat split.
  intros tick walletBalance Hlow. unfold evaluate. simpl.
  change (JS.or_else 0 (1 # 10)) with (1 # 10)%Q.
  apply JS_ltb_lt in Hlow. by rewrite Hlow.
Qed.

Lemma explicit_zero_is_default_witness :
  fst (evaluate
         (new_SimpleTraderStrategy
            {| param_buyThreshold := Some 90%Q; param_sellThreshold := Some 110%Q;
               param_minBalance := Some 0%Q |})
         (tick_at 85) (5#100))
  = wait_action (InsufficientBalance (5#100) (1#10)).
Proof.
  apply (explicit_zero_is_default (Some 90%Q) (Some 110%Q) None).
  reflexivity.
Defined.

(** ** Stepping through computations *)

Lemma run_bind {A B} (m : M A) (k : A -> M B) w :
  (x ← m; k x) w
  = match m w with
    | (inr x, w') => k x w'
    | (inl e, w') => (inl e, w')
    end.
Proof. reflexivity. Qed.

Lemma bind_ok {A B} (m : M A) (k : A -> M B) w x w' :
  m w = (inr x, w') -> (x ← m; k x) w = k x w'.
Proof. intros H. rewrite run_bind. by rewrite H. Qed.

Lemma bind_fail {A B} (m : M A) (k : A -> M B) w e w' :
  m w = (inl e, w') -> (x ← m; k x) w = (inl e, w').
Proof. intros H. rewrite run_bind. by rewrite H. Qed.

Lemma bind_gets {A B} (f : World -> A) (k : A -> M B) w :
  (x ← gets f; k x) w = k (f w) w.
Proof. reflexivity. Qed.

Lemma bind_modify {B} (f : World -> World) (k : unit -> M B) w :
  (x ← modify f; k x) w = k tt (f w).
Proof. reflexivity. Qed.

Lemma bind_ret {A B} (x : A) (k : A -> M B) w : (y ← ret x; k y) w = k x w.
Proof. reflexivity. Qed.

Lemma bind_throw {A B} (e : Error) (k : A -> M B) w :
  (y ← throw e; k y) w = (inl e, w).
Proof. reflexivity. Qed.

Lemma try_ok {A} (m : M A) h w x w' :
  m w = (inr x, w') -> try_catch m h w = (inr x, w').
Proof. intros H. unfold try_catch. by rewrite H. Qed.

Lemma try_fail {A} (m : M A) h w e w' :
  m w = (inl e, w') -> try_catch m h w = h e w'.
Proof. intros H. unfold try_catch. by rewrite H. Qed.

(** ** Keeping a property across a computation *)

Section Preserves.
Context (I : World -> Prop).

Lemma preserves_ret {A} (x : A) : preserves I (ret x).
Proof. by intros w. Qed.

Lemma preserves_throw {A} e : preserves I (@throw A e).
Proof. by intros w. Qed.

Lemma preserves_external {A} (r : string + A) : preserves I (external r).
Proof. by destruct r; intros w. Qed.

Lemma preserves_gets {A} (f : World -> A) : preserves I (gets f).
Proof. by intros w. Qed.

Lemma preserves_modify f : (forall w, I w -> I (f w)) -> preserves I (modify f).
Proof. intros H w. apply H. Qed.

Lemma preserves_bind {A B} (m : M A) (k : A -> M B) :
  preserves I m -> (forall x, preserves I (k x)) -> preserves I (x ← m; k x).
Proof.
  intros Hm Hk w Hw. rewrite run_bind. specialize (Hm w Hw).
  destruct (m w) as [[e|x] w']; simpl in *; [done|]. by apply Hk.
Qed.

Lemma preserves_try_catch {A} (m : M A) h :
  preserves I m -> (forall e, preserves I (h e)) -> preserves I (try_catch m h).
Proof.
  intros Hm Hh w Hw. unfold try_catch. specialize (Hm w Hw).
  destruct (m w) as [[e|x] w']; simpl in *; [|done]. by apply Hh.
Qed.

Lemma preserves_for_each {A} (xs : list A) f :
  (forall x, preserves I (f x)) -> preserves I (for_each xs f).
Proof.
  intros Hf. induction xs as [|x xs IH]; simpl.
  - apply preserves_ret.
  - apply preserves_bind; [apply Hf | intros _; apply IH].
Qed.
End Preserves.

(** ** The ledger and the log, one write at a time *)

Lemma logActivity_registered agentId activity w agent :
  agents w !! agentId = Some agent ->
  logActivity agentId activity w
  = (inr tt,
     with_agents
       (insert agentId
          (set_activityLog agent (push_capped (activityLog agent) activity))) w).
Proof. intros H. unfold logActivity. rewrite bind_gets. by rewrite H. Qed.

Lemma logActivity_unregistered agentId activity w :
  agents w !! agentId = None -> logActivity agentId activity w = (inr tt, w).
Proof. intros H. unfold logActivity. rewrite bind_gets. by rewrite H. Qed.

Lemma updateBalance_known pk b w wallet :
  wallets w !! pk = Some wallet ->
  updateBalance pk b w
  = (inr tt, with_wallets (insert pk (set_balance wallet b)) w).
Proof. intros H. unfold updateBalance. rewrite bind_gets. by rewrite H. Qed.

Lemma updateBalance_unknown pk b w :
  wallets w !! pk = None -> updateBalance pk b w = (inr tt, w).
Proof. intros H. unfold updateBalance. rewrite bind_gets. by rewrite H. Qed.

(** ** The creation form and the constructor *)

Lemma createWallet_ok ext w :
  storeKey ext = inr tt ->
  createWallet ext w
  = (inr {| publicKey := generatedKey ext; createdAt := now ext;
            balance := 0; tokenBalances := [] |},
     with_wallets (insert (generatedKey ext)
                     {| publicKey := generatedKey ext; createdAt := now ext;
                        balance := 0; tokenBalances := [] |}) w).
Proof.
  intros H. unfold createWallet. rewrite run_bind. by rewrite H.
Qed.





(** ** The swap executor *)

Lemma accounts_ok_false w pk params :
  accounts_ok w pk params = false <-> accounts_invalid w pk params.
Proof.
  unfold accounts_ok, accounts_invalid.
  destruct (wallets w !! pk) as [wallet|] eqn:Hw.
  - destruct (String.eqb_spec (fromToken params) "SOL") as [Heq|Hne].
    + rewrite negb_false_iff, JS_ltb_lt. split.
      * intros H. right. eauto.
      * intros [?|(_ & wallet' & ? & ?)]; [done|]. by simplify_eq.
    + split; [done|]. intros [?|(? & _)]; done.
  - split; [by left | done].
Qed.

Lemma validateAccounts_spec pk params w :
  validateAccounts pk params w = (inr (accounts_ok w pk params), w).
Proof.
  unfold validateAccounts, accounts_ok, try_catch, getWallet.
  rewrite bind_gets.
  destruct (wallets w !! pk) as [wallet|]; [|done].
  destruct (String.eqb (fromToken params) "SOL"); [|done].
  by destruct (JS.ltb (balance wallet) (swap_amount params)).
Qed.

Lemma getWalletBalance_spec pk w :
  getWalletBalance pk w = (inr (balance_before w pk), w).
Proof. reflexivity. Qed.

Lemma constructSwapInstruction_spec ext params pk w :
  constructSwapInstruction ext params pk w
  = if validPublicKey ext pk then
      if accounts_ok w pk params
      then (inr {| signer := pk; data := params |}, w)
      else (inl (FailedToConstructSwapInstruction InvalidAccountsForSwap), w)
    else (inl (FailedToConstructSwapInstruction
                 (External "Invalid public key input")), w).
Proof.
  unfold constructSwapInstruction, new_PublicKey.
  destruct (validPublicKey ext pk).
  - destruct (accounts_ok w pk params) eqn:Hok.
    + apply try_ok. rewrite bind_ret.
      rewrite (bind_ok _ _ _ _ _ (validateAccounts_spec _ _ _)).
      by rewrite Hok.
    + erewrite try_fail; [reflexivity|]. rewrite bind_ret.
      rewrite (bind_ok _ _ _ _ _ (validateAccounts_spec _ _ _)).
      by rewrite Hok.
  - erewrite try_fail; [reflexivity|]. by rewrite bind_throw.
Qed.

(** Every path through [executeSwap]. *)
Lemma executeSwap_spec ext params pk w :
  executeSwap ext params pk w
  = if validPublicKey ext pk then
      if accounts_ok w pk params then
        match latestBlockhash ext with
        | inl msg => (inl (SwapExecutionFailed (External msg)), w)
        | inr _ =>
            (inr ("mock_swap_" +:+ pretty (now ext)),
             snd (updateBalancesAfterSwap pk params (balance_before w pk) w))
        end
      else (inl invalid_accounts_error, w)
    else (inl (SwapExecutionFailed
                 (FailedToConstructSwapInstruction
                    (External "Invalid public key input"))), w).
Proof.
  unfold executeSwap.
  pose proof (constructSwapInstruction_spec ext params pk w) as Hc.
  destruct (validPublicKey ext pk) eqn:Hkey.
  - destruct (accounts_ok w pk params) eqn:Hok.
    + destruct (latestBlockhash ext) as [msg|bh] eqn:Hbh.
      * erewrite try_fail; [reflexivity|].
        rewrite (bind_ok _ _ _ _ _ (getWalletBalance_spec _ _)).
        rewrite (bind_ok _ _ _ _ _ Hc). cbn [external].
        by rewrite bind_throw.
      * erewrite try_ok; [reflexivity|].
        rewrite (bind_ok _ _ _ _ _ (getWalletBalance_spec _ _)).
        rewrite (bind_ok _ _ _ _ _ Hc). cbn [external]. rewrite bind_ret.
        unfold new_PublicKey. rewrite Hkey, bind_ret.
        rewrite run_bind.
        unfold updateBalancesAfterSwap, updateBalance.
        destruct (String.eqb (fromToken params) "SOL"); [|done].
        rewrite bind_gets. by destruct (wallets w !! pk).
    + erewrite try_fail; [reflexivity|].
      rewrite (bind_ok _ _ _ _ _ (getWalletBalance_spec _ _)).
      by rewrite (bind_fail _ _ _ _ _ Hc).
  - erewrite try_fail; [reflexivity|].
    rewrite (bind_ok _ _ _ _ _ (getWalletBalance_spec _ _)).
    by rewrite (bind_fail _ _ _ _ _ Hc).
Qed.

Lemma executeSwap_failure_keeps_world ext params pk w e :
  fst (executeSwap ext params pk w) = inl e -> snd (executeSwap ext params pk w) = w.
Proof.
  rewrite executeSwap_spec.
  repeat case_match; simpl; intros; simplify_eq; done.
Qed.

Lemma executeSwap_success ext params pk w sig :
  fst (executeSwap ext params pk w) = inr sig ->
  validPublicKey ext pk = true /\ accounts_ok w pk params = true /\
  (exists bh, latestBlockhash ext = inr bh) /\
  snd (executeSwap ext params pk w)
  = snd (updateBalancesAfterSwap pk params (balance_before w pk) w).
Proof.
  rewrite executeSwap_spec.
  repeat case_match; simpl; intros; simplify_eq; eauto.
Qed.



Lemma buy_success ext pk amt w sig :
  fst (executeTrade ext pk Buy amt w) = inr sig ->
  exists wallet,
    wallets w !! pk = Some wallet /\
    (amt <= balance wallet)%Q /\
    snd (executeTrade ext pk Buy amt w)
    = with_wallets
        (insert pk (set_balance wallet (JS.or_else (balance wallet) 0 - amt))) w.
Proof.
  unfold executeTrade. intros H.
  apply executeSwap_success in H as (_ & Hok & _ & ->).
  unfold accounts_ok in Hok. unfold updateBalancesAfterSwap, balance_before.
  simpl in *.
  destruct (wallets w !! pk) as [wallet|] eqn:Hw; [|done].
  apply negb_true_iff, JS_ltb_ge in Hok.
  exists wallet. split; [done|]. split; [done|].
  by rewrite (updateBalance_known _ _ _ _ Hw).
Qed.



(** C6. After a buy has executed the wallet's balance is not negative: a
    buy for more than the balance is refused before anything is written
    (the world is as it was), and a buy that goes through leaves
    balance - amount >= 0. *)
Theorem buy_keeps_balance_nonnegative ext pk amt w :
  (forall wallet,
     wallets w !! pk = Some wallet ->
     (balance wallet < amt)%Q ->
     (exists e, fst (executeTrade ext pk Buy amt w) = inl e) /\
     snd (executeTrade ext pk Buy amt w) = w)
  /\ (forall sig wallet',
        fst (executeTrade ext pk Buy amt w) = inr sig ->
        wallets (snd (executeTrade ext pk Buy amt w)) !! pk = Some wallet' ->
        (0 <= balance wallet')%Q).
Proof.
  split.
  - intros wallet Hw Hlt.
    destruct (fst (executeTrade ext pk Buy amt w)) as [e|sig] eqn:Hres.
    + split; [eauto|]. unfold executeTrade in *.
      by eapply executeSwap_failure_keeps_world.
    + apply buy_success in Hres as (wallet0 & Hw0 & Hle & _).
      simplify_eq. exfalso. exact (Qlt_not_le _ _ Hlt Hle).
  - intros sig wallet' Hres Hw'.
    apply buy_success in Hres as (wallet & Hw & Hle & Heq).
    rewrite Heq in Hw'. simpl in Hw'. rewrite lookup_insert_eq in Hw'.
    simplify_eq. simpl. rewrite JS_or_else_zero.
    by apply Qle_minus_iff in Hle.
Qed.

Lemma buy_keeps_balance_nonnegative_witness :
  (0 <= balance {| publicKey := "Wallet1"; createdAt := 1;
                   balance := 1 - (1#10); tokenBalances := [] |})%Q.
Proof.
  apply (proj2 (buy_keeps_balance_nonnegative (outside 3 85 1) "Wallet1"
                  (1#10) funded_world) "mock_swap_3").
  - by vm_compute.
  - by vm_compute.
Defined.

(** ** Properties that ledger writes and log appends keep *)

Ltac preserve_with tac :=
  repeat first
    [ tac
    | match goal with
      | |- preserves _ (ret _) => apply preserves_ret
      | |- preserves _ (throw _) => apply preserves_throw
      | |- preserves _ (external _) => apply preserves_external
      | |- preserves _ (gets _) => apply preserves_gets
      | |- preserves _ (mbind _ _) => apply preserves_bind; [|intros ?]
      | |- preserves _ (try_catch _ _) => apply preserves_try_catch; [|intros ?]
      | |- preserves _ (for_each _ _) => apply preserves_for_each; intros ?
      | |- preserves _ (match ?x with _ => _ end) => destruct x
      end ].

Section Frame.
Context (I : World -> Prop).
Hypothesis I_wallets : forall f w, I w -> I (with_wallets f w).
Hypothesis I_log : forall id a activity w,
  agents w !! id = Some a ->
  I w ->
  I (with_agents
       (insert id (set_activityLog a (push_capped (activityLog a) activity)))
       w).

Lemma preserves_logActivity id activity : preserves I (logActivity id activity).
Proof.
  intros w Hw. destruct (agents w !! id) as [a|] eqn:Ha.
  - rewrite (logActivity_registered _ _ _ _ Ha). by apply I_log.
  - by rewrite (logActivity_unregistered _ _ _ Ha).
Qed.

Lemma preserves_updateBalance pk b : preserves I (updateBalance pk b).
Proof.
  intros w Hw. unfold updateBalance. rewrite bind_gets.
  destruct (wallets w !! pk); [by apply I_wallets | done].
Qed.

Lemma preserves_updateTokenBalances pk tbs :
  preserves I (updateTokenBalances pk tbs).
Proof.
  intros w Hw. unfold updateTokenBalances. rewrite bind_gets.
  destruct (wallets w !! pk); [by apply I_wallets | done].
Qed.

Lemma preserves_updateWalletBalance ext pk :
  preserves I (updateWalletBalance ext pk).
Proof.
  unfold updateWalletBalance.
  preserve_with ltac:(first [ apply preserves_updateBalance
                            | apply preserves_updateTokenBalances ]).
Qed.

Lemma preserves_executeSwap ext params pk : preserves I (executeSwap ext params pk).
Proof.
  intros w Hw. rewrite executeSwap_spec.
  repeat case_match; simpl; try done.
  unfold updateBalancesAfterSwap. case_match; [|done].
  by apply preserves_updateBalance.
Qed.

Lemma preserves_executeDecisionCycle ext id :
  preserves I (executeDecisionCycle ext id).
Proof.
  unfold executeDecisionCycle, getWallet, executeTrade.
  preserve_with ltac:(first [ apply preserves_logActivity
                            | apply preserves_executeSwap
                            | apply preserves_updateWalletBalance ]).
Qed.
End Frame.

(** ** The log bound *)

Lemma push_capped_length log activity :
  length (push_capped log activity) = min 100 (S (length log)).
Proof.
  unfold push_capped, slice_last.
  destruct (100 <? length (log ++ [activity]))%nat eqn:E.
  - apply Nat.ltb_lt in E. rewrite length_drop.
    rewrite length_app in *. change (length [activity]) with 1 in *. lia.
  - apply Nat.ltb_ge in E.
    rewrite length_app in *. change (length [activity]) with 1 in *. lia.
Qed.

Lemma push_capped_suffix log activity :
  push_capped log activity `suffix_of` (log ++ [activity]).
Proof.
  unfold push_capped, slice_last. case_match; [apply suffix_drop | done].
Qed.

Lemma push_capped_last log activity :
  last (push_capped log activity) = Some activity.
Proof.
  unfold push_capped, slice_last. case_match eqn:E.
  - apply Nat.ltb_lt in E. rewrite length_app in *.
    change (length [activity]) with 1 in *.
    rewrite drop_app_le by lia. apply last_snoc.
  - apply last_snoc.
Qed.

Lemma logs_bounded_insert id a w :
  length (activityLog a) <= 100 ->
  logs_bounded w -> logs_bounded (with_agents (insert id a) w).
Proof.
  intros Hlen Hw j b. simpl. rewrite lookup_insert.
  case_decide; intros; simplify_eq; eauto.
Qed.

Lemma logs_bounded_wallets f w : logs_bounded w -> logs_bounded (with_wallets f w).
Proof. done. Qed.

Lemma logs_bounded_log id a activity w :
  agents w !! id = Some a ->
  logs_bounded w ->
  logs_bounded
    (with_agents
       (insert id (set_activityLog a (push_capped (activityLog a) activity))) w).
Proof.
  intros _. apply logs_bounded_insert. simpl. rewrite push_capped_length. lia.
Qed.

Lemma preserves_apply {A} (I : World -> Prop) (m : M A) w :
  preserves I m -> I w -> I (snd (m w)).
Proof. intros H. apply H. Qed.

Lemma logs_bounded_same_agents w w' :
  agents w' = agents w -> logs_bounded w -> logs_bounded w'.
Proof. unfold logs_bounded. by intros ->. Qed.

Lemma logs_bounded_delete id w :
  logs_bounded w -> logs_bounded (with_agents (delete id) w).
Proof.
  intros Hw j b. simpl. rewrite lookup_delete.
  case_decide; intros; simplify_eq; eauto.
Qed.

Ltac preserve_logs :=
  preserve_with
    ltac:(first
      [ apply (preserves_logActivity _ logs_bounded_log)
      | apply (preserves_executeDecisionCycle _ logs_bounded_wallets
                 logs_bounded_log)
      | apply (preserves_updateWalletBalance _ logs_bounded_wallets)
      | apply preserves_modify; intros ? ?;
        first [ by eapply logs_bounded_same_agents
              | by apply logs_bounded_insert
              | by apply logs_bounded_delete ] ]).

Lemma logs_bounded_createAgent ext cfg :
  preserves logs_bounded (createAgent ext cfg).
Proof.
  unfold createAgent, createWallet. preserve_logs.
  apply preserves_modify. intros w Hw.
  apply logs_bounded_insert; [simpl; lia | done].
Qed.

Lemma logs_bounded_startAgent ext id :
  preserves logs_bounded (startAgent ext id).
Proof.
  intros w Hw. unfold startAgent. rewrite bind_gets.
  destruct (agents w !! id) as [a|] eqn:Ha; [|done].
  destruct (Status_eqb (status a) Active); [done|].
  assert (length (activityLog (set_status a Active)) <= 100) by (simpl; eauto).
  apply preserves_apply; [|done]. unfold startDecisionLoop. preserve_logs.
Qed.

Lemma logs_bounded_stopAgent ext id :
  preserves logs_bounded (stopAgent ext id).
Proof.
  intros w Hw. unfold stopAgent. rewrite bind_gets.
  destruct (agents w !! id) as [a|] eqn:Ha; [|done].
  assert (length (activityLog (set_status a Stopped)) <= 100) by (simpl; eauto).
  apply preserves_apply; [|done]. preserve_logs.
  apply preserves_modify. intros w' Hw'.
  eapply logs_bounded_same_agents; [|done].
  unfold clearDecisionInterval. by case_match.
Qed.

Lemma logs_bounded_perform ext op : preserves logs_bounded (perform ext op).
Proof.
  destruct op; simpl.
  - apply preserves_bind; [apply logs_bounded_createAgent|].
    intros ?. apply preserves_ret.
  - apply logs_bounded_startAgent.
  - apply logs_bounded_stopAgent.
  - unfold stopAllAgents.
    preserve_with ltac:(apply logs_bounded_stopAgent).
  - unfold deleteAgent.
    preserve_with ltac:(first [ apply logs_bounded_stopAgent
                              | apply preserves_modify;
                                apply logs_bounded_delete ]).
  - apply (preserves_executeDecisionCycle _ logs_bounded_wallets
             logs_bounded_log).
  - apply (preserves_updateWalletBalance _ logs_bounded_wallets).
Qed.

Lemma reachable_logs_bounded w : reachable w -> logs_bounded w.
Proof.
  induction 1 as [|w ext op _ IH _].
  - intros id a. simpl. by rewrite lookup_empty.
  - by apply logs_bounded_perform.
Qed.

(** C7. After any sequence of controller operations every agent's
    [activityLog] has at most 100 entries; and an append keeps the newest
    entries in time order, dropping from the old end: the new log is the
    suffix of old-log-plus-entry of length min(100, old length + 1), and it
    ends with the entry just written. *)
Theorem activity_log_capped w id a :
  reachable w ->
  agents w !! id = Some a ->
  length (activityLog a) <= 100
  /\ forall activity,
       exists a',
         agents (snd (logActivity id activity w)) !! id = Some a'
         /\ activityLog a' `suffix_of` (activityLog a ++ [activity])
         /\ length (activityLog a') = min 100 (S (length (activityLog a)))
         /\ last (activityLog a') = Some activity.
Proof.
  intros Hreach Ha. split.
  - by eapply reachable_logs_bounded.
  - intros activity. rewrite (logActivity_registered _ _ _ _ Ha). simpl.
    rewrite lookup_insert_eq. eexists. split; [done|]. simpl.
    split; [apply push_capped_suffix|].
    split; [apply push_capped_length | apply push_capped_last].
Qed.

Lemma reachable_run script w :
  reachable w ->
  Forall (fun step => forall cfg, step.2 <> CreateAgent cfg) script ->
  reachable (run script w).
Proof.
  revert w. induction script as [|[ext op] script IH]; intros w Hw Hs; [done|].
  inversion Hs as [|? ? Hop Hrest]; subst. simpl. apply IH; [|done].
  apply reachable_step; [done|]. destruct op; try done.
  by destruct (Hop strategy0).
Qed.

Lemma reachable_funded_world : reachable funded_world.
Proof.
  unfold funded_world. simpl run.
  apply (reachable_step _ (outside 2 100 1) (RefreshBalance "Wallet1")); [|done].
  apply (reachable_step _ (outside 1 100 1) (CreateAgent default_strategy));
    [apply reachable_initial | reflexivity].
Qed.

Lemma reachable_busy_world : reachable busy_world.
Proof.
  apply reachable_run; [apply reachable_funded_world|].
  apply Forall_cons. split; [done|].
  unfold cycles. apply Forall_map. by apply Forall_true.
Qed.

(** After 123 appends (created, started, the immediate cycle and 120 timer
    cycles) the log holds exactly 100 entries: the 23 oldest are gone, the
    entry of the cycle at time 30 is now first and the newest is last. *)
Example busy_log_is_full :
  length (log_of busy_world "agent_1_abc") = 100
  /\ act_timestamp <$> head (log_of busy_world "agent_1_abc") = Some 30%N
  /\ act_timestamp <$> last (log_of busy_world "agent_1_abc") = Some 129%N.
Proof. by vm_compute. Qed.

Lemma activity_log_capped_witness :
  length (activityLog (agent_of busy_world "agent_1_abc")) <= 100.
Proof.
  apply (activity_log_capped busy_world "agent_1_abc"
           (agent_of busy_world "agent_1_abc")).
  - apply reachable_busy_world.
  - by vm_compute.
Defined.

(** ** The control machine *)

Lemma elem_of_set_add j id (s : list string) :
  j ∈ set_add id s <-> j = id \/ j ∈ s.
Proof.
  unfold set_add. case_bool_decide.
  - intuition congruence.
  - rewrite elem_of_app, list_elem_of_singleton. intuition congruence.
Qed.

Lemma elem_of_set_delete j id (s : list string) :
  j ∈ set_delete id s <-> j <> id /\ j ∈ s.
Proof. unfold set_delete. by rewrite list_elem_of_filter. Qed.

Lemma consistent_start id c s :
  consistent c -> c_status c !! id = Some s -> s <> Active ->
  consistent (ctrl_start id c).
Proof.
  intros (H1 & H2 & H3 & H4) Hs Hne.
  assert (id ∉ c_active c) as Hid by (rewrite H1, Hs; congruence).
  assert (c_intervals c !! id = None) as Hint.
  { apply eq_None_not_Some. by rewrite H2. }
  assert (c_timers c !! c_next c = None) as Hnext.
  { destruct (c_timers c !! c_next c) eqn:E; [|done].
    apply H4 in E. lia. }
  unfold ctrl_start. split; [|split; [|split]]; simpl.
  - intros j. rewrite elem_of_set_add, lookup_insert.
    case_decide; [intuition congruence|]. rewrite <- H1. intuition congruence.
  - intros j. rewrite elem_of_set_add, lookup_insert.
    case_decide; [split; eauto|]. rewrite H2. intuition congruence.
  - intros j h. rewrite !lookup_insert.
    destruct (decide (id = j)) as [->|Hj], (decide (c_next c = h)) as [<-|Hh].
    + done.
    + split; [congruence|]. intros Ht%H3. congruence.
    + split; [|congruence]. intros Hi%H3. congruence.
    + apply H3.
  - intros h j. rewrite lookup_insert. case_decide; [lia|].
    intros Hh%H4. lia.
Qed.

Lemma consistent_stop id c : consistent c -> consistent (ctrl_stop id c).
Proof.
  intros (H1 & H2 & H3 & H4).
  unfold ctrl_stop. split; [|split; [|split]]; simpl.
  - intros j. rewrite elem_of_set_delete, lookup_insert.
    case_decide; [intuition congruence|]. rewrite H1. intuition congruence.
  - intros j. rewrite elem_of_set_delete, lookup_delete.
    case_decide; [|rewrite H2; intuition congruence].
    split; [by intros [? ?] | intuition congruence].
  - intros j h. rewrite lookup_delete.
    destruct (decide (id = j)) as [->|Hj].
    + split; [done|]. intros Hh.
      assert (c_timers c !! h = Some j) as Ht.
      { destruct (c_intervals c !! j); [|done].
        rewrite lookup_delete in Hh. by case_decide. }
      apply H3 in Ht. rewrite Ht in Hh. by rewrite lookup_delete_eq in Hh.
    + destruct (c_intervals c !! id) as [h0|] eqn:E; [|apply H3].
      rewrite lookup_delete. case_decide; [|apply H3]. subst.
      split; [|done]. intros Hi%H3. apply H3 in E. congruence.
  - intros h j Hh. apply (H4 h j).
    destruct (c_intervals c !! id); [|done].
    rewrite lookup_delete in Hh. by case_decide.
Qed.

Lemma consistent_register id c :
  consistent c -> c_status c !! id = None -> consistent (ctrl_register id c).
Proof.
  intros (H1 & H2 & H3 & H4) Hnone.
  unfold ctrl_register. split; [|by split; [|split]]. simpl.
  intros j. rewrite lookup_insert. case_decide; [|apply H1].
  subst. rewrite H1, Hnone. split; congruence.
Qed.

Lemma consistent_forget id c :
  consistent c -> id ∉ c_active c -> consistent (ctrl_forget id c).
Proof.
  intros (H1 & H2 & H3 & H4) Hid.
  unfold ctrl_forget. split; [|by split; [|split]]. simpl.
  intros j. rewrite lookup_delete. case_decide; [|apply H1].
  subst. split; [done | congruence].
Qed.

(** ** What each operation does to the control projection *)

Lemma ctrl_set_log id a log w :
  agents w !! id = Some a ->
  ctrl (with_agents (insert id (set_activityLog a log)) w) = ctrl w.
Proof.
  intros Ha. unfold ctrl. simpl. f_equal.
  rewrite fmap_insert. simpl. apply insert_id. by rewrite lookup_fmap, Ha.
Qed.

Lemma ctrl_logActivity id activity w :
  ctrl (snd (logActivity id activity w)) = ctrl w.
Proof.
  destruct (agents w !! id) as [a|] eqn:Ha.
  - rewrite (logActivity_registered _ _ _ _ Ha). by apply ctrl_set_log.
  - by rewrite (logActivity_unregistered _ _ _ Ha).
Qed.

Lemma logActivity_returns id activity w : fst (logActivity id activity w) = inr tt.
Proof.
  destruct (agents w !! id) as [a|] eqn:Ha.
  - by rewrite (logActivity_registered _ _ _ _ Ha).
  - by rewrite (logActivity_unregistered _ _ _ Ha).
Qed.

(** A decision cycle never lets an exception out. *)
Lemma executeDecisionCycle_returns ext id w :
  fst (executeDecisionCycle ext id w) = inr tt.
Proof.
  unfold executeDecisionCycle, try_catch.
  match goal with |- context [match ?m w with _ => _ end] =>
    destruct (m w) as [[e|[]] w'] end.
  - apply logActivity_returns.
  - done.
Qed.

(** A decision cycle changes neither statuses nor schedules. *)
Lemma ctrl_executeDecisionCycle ext id w :
  ctrl (snd (executeDecisionCycle ext id w)) = ctrl w.
Proof.
  apply (preserves_executeDecisionCycle (fun w' => ctrl w' = ctrl w));
    [done | | done].
  intros id' a activity w' Ha <-. by apply ctrl_set_log.
Qed.

Lemma ctrl_updateWalletBalance ext pk w :
  ctrl (snd (updateWalletBalance ext pk w)) = ctrl w.
Proof.
  by apply (preserves_updateWalletBalance (fun w' => ctrl w' = ctrl w)).
Qed.

Lemma startAgent_missing ext id w :
  agents w !! id = None -> startAgent ext id w = (inl (AgentNotFound id), w).
Proof. intros H. unfold startAgent. rewrite bind_gets. by rewrite H. Qed.

Lemma startAgent_already_active ext id w a :
  agents w !! id = Some a -> status a = Active ->
  startAgent ext id w = (inr tt, w).
Proof.
  intros H Hs. unfold startAgent. rewrite bind_gets. by rewrite H, Hs.
Qed.

Lemma startAgent_starts ext id w a :
  agents w !! id = Some a -> status a <> Active ->
  fst (startAgent ext id w) = inr tt /\
  ctrl (snd (startAgent ext id w)) = ctrl_start id (ctrl w).
Proof.
  intros H Hs. unfold startAgent. rewrite bind_gets, H.
  destruct (Status_eqb (status a) Active) eqn:E; [by destruct (status a)|].
  rewrite !bind_modify.
  erewrite bind_ok; last first.
  { apply logActivity_registered. simpl. apply lookup_insert_eq. }
  unfold startDecisionLoop. rewrite bind_modify.
  split; [apply executeDecisionCycle_returns|].
  rewrite ctrl_executeDecisionCycle.
  unfold ctrl, ctrl_start. simpl. f_equal.
  by rewrite insert_insert_eq, fmap_insert.
Qed.

Lemma stopAgent_missing ext id w :
  agents w !! id = None -> stopAgent ext id w = (inl (AgentNotFound id), w).
Proof. intros H. unfold stopAgent. rewrite bind_gets. by rewrite H. Qed.

Lemma stopAgent_registered ext id w a :
  agents w !! id = Some a ->
  stopAgent ext id w
  = (inr tt,
     with_agents
       (insert id
          (set_activityLog (set_status a Stopped)
             (push_capped (activityLog a)
                {| act_timestamp := now ext; act_action := "stopped";
                   decision := Text "Agent deactivated";
                   transactionSignature := None; result := Success |})))
       (with_activeAgentIds (set_delete id) (clearDecisionInterval id w))).
Proof.
  intros H. unfold stopAgent. rewrite bind_gets, H, !bind_modify.
  erewrite logActivity_registered; last first.
  { simpl. apply lookup_insert_eq. }
  f_equal. unfold with_agents. simpl. by rewrite insert_insert_eq.
Qed.

Lemma ctrl_stopAgent ext id w a :
  agents w !! id = Some a ->
  ctrl (snd (stopAgent ext id w)) = ctrl_stop id (ctrl w).
Proof.
  intros H. rewrite (stopAgent_registered _ _ _ _ H).
  unfold ctrl, ctrl_stop, clearDecisionInterval. simpl.
  destruct (decisionIntervals w !! id) eqn:E; simpl; rewrite fmap_insert;
    [done|]. by rewrite (delete_id _ _ E).
Qed.

Lemma consistent_stopAgent ext id :
  preserves (fun w => consistent (ctrl w)) (stopAgent ext id).
Proof.
  intros w Hw. destruct (agents w !! id) as [a|] eqn:Ha.
  - rewrite (ctrl_stopAgent _ _ _ _ Ha). by apply consistent_stop.
  - by rewrite (stopAgent_missing _ _ _ Ha).
Qed.

Lemma ctrl_status_lookup w id :
  c_status (ctrl w) !! id = status <$> agents w !! id.
Proof. simpl. apply lookup_fmap. Qed.

Lemma ctrl_delete id w :
  ctrl (with_agents (delete id) w) = ctrl_forget id (ctrl w).
Proof. unfold ctrl, ctrl_forget. simpl. f_equal. apply fmap_delete. Qed.

Lemma consistent_perform ext op w :
  id_is_fresh w ext op ->
  consistent (ctrl w) -> consistent (ctrl (snd (perform ext op w))).
Proof.
  intros Hfresh Hw. destruct op as [cfg|id|id| |id|id|pk]; simpl.
  - (* createAgent *)
    rewrite run_bind.
    destruct (storeKey ext) as [msg|[]] eqn:Hstore.
    + unfold createAgent, createWallet. rewrite run_bind, run_bind, Hstore.
      done.
    + unfold createAgent.
      rewrite (bind_ok _ _ _ _ _ (createWallet_ok _ _ Hstore)).
      rewrite bind_modify.
      erewrite bind_ok; last first.
      { apply logActivity_registered. simpl. apply lookup_insert_eq. }
      simpl in Hfresh. unfold gets. simpl.
      match goal with |- consistent ?c =>
        replace c with (ctrl_register (new_agent_id ext) (ctrl w)) end.
      * apply consistent_register; [done|].
        by rewrite ctrl_status_lookup, Hfresh.
      * unfold ctrl, ctrl_register. simpl. f_equal.
        by rewrite insert_insert_eq, fmap_insert.
  - (* startAgent *)
    destruct (agents w !! id) as [a|] eqn:Ha.
    + destruct (decide (status a = Active)) as [Hs|Hs].
      * by rewrite (startAgent_already_active _ _ _ _ Ha Hs).
      * destruct (startAgent_starts ext _ _ _ Ha Hs) as [_ ->].
        eapply consistent_start; [done| |done].
        by rewrite ctrl_status_lookup, Ha.
    + by rewrite (startAgent_missing _ _ _ Ha).
  - by apply consistent_stopAgent.
  - (* stopAllAgents *)
    unfold stopAllAgents. rewrite bind_gets.
    apply (preserves_for_each (fun w => consistent (ctrl w))); [|done].
    apply consistent_stopAgent.
  - (* deleteAgent *)
    unfold deleteAgent. rewrite bind_gets.
    case_bool_decide as Hact.
    + pose proof (proj1 (proj1 Hw id) Hact) as Hst.
      rewrite ctrl_status_lookup in Hst.
      destruct (agents w !! id) as [a|] eqn:Ha; [|done].
      pose proof (ctrl_stopAgent ext _ _ _ Ha) as Hc.
      rewrite (stopAgent_registered _ _ _ _ Ha) in Hc.
      rewrite (bind_ok _ _ _ _ _ (stopAgent_registered _ _ _ _ Ha)).
      unfold modify. cbn [snd] in *. rewrite ctrl_delete, Hc.
      apply consistent_forget; [by apply consistent_stop|].
      simpl. rewrite elem_of_set_delete. tauto.
    + rewrite bind_ret. unfold modify. cbn [snd]. rewrite ctrl_delete.
      by apply consistent_forget.
  - by rewrite ctrl_executeDecisionCycle.
  - by rewrite ctrl_updateWalletBalance.
Qed.

Lemma consistent_initial : consistent (ctrl initial_world).
Proof.
  split; [|split; [|split]]; simpl.
  - intros id. rewrite fmap_empty, lookup_empty. split; [|done].
    by intros ?%elem_of_nil.
  - intros id. rewrite lookup_empty. split; [by intros [? ?]|].
    by intros ?%elem_of_nil.
  - intros id h. by rewrite !lookup_empty.
  - intros h id. by rewrite lookup_empty.
Qed.

Lemma reachable_consistent w : reachable w -> consistent (ctrl w).
Proof.
  induction 1 as [|w ext op _ IH Hfresh].
  - apply consistent_initial.
  - by apply consistent_perform.
Qed.



(** Stopping the busy agent leaves no interval behind. *)
Example stop_clears_the_interval :
  let w := snd (stopAgent (outside 200 100 1) "agent_1_abc" busy_world) in
  status (agent_of w "agent_1_abc") = Stopped
  /\ decisionIntervals w = ∅ /\ timers w = ∅ /\ activeAgentIds w = [].
Proof. by vm_compute. Qed.

(** ** Stopping all agents *)

Lemma agents_clearDecisionInterval id w :
  agents (clearDecisionInterval id w) = agents w.
Proof. unfold clearDecisionInterval. by case_match. Qed.








(** ** The debounce and the decision cycle *)

(** A new instance has no last action, so a low price with enough balance
    always makes it buy. *)
Lemma new_instance_buys cfg tick bal :
  ~ (bal < minBalance (createStrategyInstance cfg))%Q ->
  (price tick < buyThreshold (createStrategyInstance cfg))%Q ->
  fst (evaluate (createStrategyInstance cfg) tick bal)
  = trade_action Buy (Qmin (bal * (1#10)) (1#2))
      (PriceBelowBuyThreshold (price tick)
         (buyThreshold (createStrategyInstance cfg))
         (Qmin (bal * (1#10)) (1#2))).
Proof.
  intros Hbal Hprice.
  assert (lastAction (createStrategyInstance cfg) = LastWait) as Hlast
    by (by destruct cfg as [[] ?]).
  unfold evaluate. apply JS_ltb_not_lt in Hbal. apply JS_ltb_lt in Hprice.
  by rewrite Hbal, Hprice, Hlast.
Qed.

Lemma updateWalletBalance_returns ext pk w :
  fst (updateWalletBalance ext pk w) = inr tt.
Proof.
  unfold updateWalletBalance, try_catch.
  match goal with |- context [match ?m w with _ => _ end] =>
    destruct (m w) as [[e|[]] w'] end; done.
Qed.

Lemma agents_updateWalletBalance ext pk w :
  agents (snd (updateWalletBalance ext pk w)) = agents w.
Proof.
  by apply (preserves_updateWalletBalance (fun w' => agents w' = agents w)).
Qed.

Lemma agents_executeSwap ext params pk w :
  agents (snd (executeSwap ext params pk w)) = agents w.
Proof.
  by apply (preserves_executeSwap (fun w' => agents w' = agents w)).
Qed.

Lemma log_of_logActivity id activity w :
  is_Some (agents w !! id) ->
  last (log_of (snd (logActivity id activity w)) id) = Some activity.
Proof.
  intros [a Ha]. rewrite (logActivity_registered _ _ _ _ Ha).
  unfold log_of. simpl. rewrite lookup_insert_eq. apply push_capped_last.
Qed.

(** Whatever happened in earlier cycles, a cycle of an active agent that
    sees a price below the buy threshold with the balance check passing
    attempts a trade (the buy: the buy check comes first) and logs it. *)
Lemma cycle_buys_whatever_came_before ext id w a wallet :
  agents w !! id = Some a ->
  status a = Active ->
  wallets w !! walletPublicKey a = Some wallet ->
  ~ (balance wallet < minBalance (createStrategyInstance (strategy a)))%Q ->
  (price (marketTick ext) < buyThreshold (createStrategyInstance (strategy a)))%Q ->
  exists entry,
    last (log_of (snd (executeDecisionCycle ext id w)) id) = Some entry
    /\ act_action entry = "trade"
    /\ (result entry = Success ->
        decision entry
        = Because (PriceBelowBuyThreshold (price (marketTick ext))
                     (buyThreshold (createStrategyInstance (strategy a)))
                     (Qmin (balance wallet * (1#10)) (1#2)))).
Proof.
  intros Ha Hs Hw Hbal Hprice.
  unfold executeDecisionCycle.
  match goal with |- context [try_catch ?m ?h w] =>
    assert (exists w', m w = (inr tt, w') /\
       exists entry, last (log_of w' id) = Some entry
         /\ act_action entry = "trade"
         /\ (result entry = Success ->
             decision entry
             = Because (PriceBelowBuyThreshold (price (marketTick ext))
                          (buyThreshold (createStrategyInstance (strategy a)))
                          (Qmin (balance wallet * (1#10)) (1#2)))))
      as (w' & Hrun & Hlog)
  end.
  2:{ rewrite (try_ok _ _ _ _ _ Hrun). exact Hlog. }
  rewrite bind_gets, Ha, Hs. cbn [Status_eqb negb].
  unfold getWallet. rewrite bind_gets, Hw.
  rewrite (new_instance_buys _ _ _ Hbal Hprice). cbn [tradable trade_action
    type details action amount reason action_type_name].
  unfold executeTrade, try_catch. rewrite run_bind.
  pose proof (agents_executeSwap ext
    {| fromToken := "SOL"; toToken := "TOKEN";
       swap_amount := JS.opt_or_else
                        (Some (Qmin (balance wallet * (1 # 10)) (1 # 2)))
                        (1 # 10);
       slippage := 1 |} (walletPublicKey a) w) as Hag.
  destruct (executeSwap _ _ _ w) as [[e|sig] w1]; cbn [fst snd] in Hag.
  - pose proof (logActivity_returns id
      {| act_timestamp := now ext; act_action := "trade";
         decision := Text ("Trade failed: " +:+ message e);
         transactionSignature := None; result := Failure |} w1) as Hret.
    pose proof (log_of_logActivity id
      {| act_timestamp := now ext; act_action := "trade";
         decision := Text ("Trade failed: " +:+ message e);
         transactionSignature := None; result := Failure |} w1) as Hlast.
    destruct (logActivity _ _ w1) as [[e'|[]] w2]; cbn [fst snd] in Hret, Hlast; [done|].
    eexists. split; [done|]. eexists.
    split; [apply Hlast; rewrite Hag; eauto|]. done.
  - rewrite run_bind.
    pose proof (logActivity_returns id
      {| act_timestamp := now ext; act_action := "trade";
         decision := Because (PriceBelowBuyThreshold (price (marketTick ext))
                     (buyThreshold (createStrategyInstance (strategy a)))
                     (Qmin (balance wallet * (1#10)) (1#2)));
         transactionSignature := Some sig; result := Success |} w1) as Hret.
    pose proof (log_of_logActivity id
      {| act_timestamp := now ext; act_action := "trade";
         decision := Because (PriceBelowBuyThreshold (price (marketTick ext))
                     (buyThreshold (createStrategyInstance (strategy a)))
                     (Qmin (balance wallet * (1#10)) (1#2)));
         transactionSignature := Some sig; result := Success |} w1) as Hlast.
    destruct (logActivity _ _ w1) as [[e|[]] w2]; cbn [fst snd] in Hret, Hlast; [done|].
    pose proof (updateWalletBalance_returns ext (walletPublicKey a) w2) as Hret2.
    pose proof (agents_updateWalletBalance ext (walletPublicKey a) w2) as Hag2.
    destruct (updateWalletBalance _ _ w2) as [[e|[]] w3]; cbn [fst snd] in *; [done|].
    eexists. split; [done|]. eexists.
    split.
    { unfold log_of in *. rewrite Hag2. apply Hlast. rewrite Hag. eauto. }
    by split.
Qed.

(** C1 fails on the code. An agent with the default strategy and 1 SOL is
    started while the price is 85 (the first cycle runs at once) and its
    timer fires again with the price still 85: both cycles buy, the second
    one without any sell in between. *)
Theorem consecutive_cycles_both_buy :
  let started := snd (startAgent (outside 3 85 1) "agent_1_abc" funded_world) in
  let next := snd (executeDecisionCycle (outside 4 85 1) "agent_1_abc" started) in
  let bought t :=
    {| act_timestamp := t; act_action := "trade";
       decision := Because (PriceBelowBuyThreshold 85 90
                              (Qmin (1 * (1#10)) (1#2)));
       transactionSignature := Some ("mock_swap_" +:+ pretty t);
       result := Success |} in
  drop 2 (log_of next "agent_1_abc") = [bought 3%N; bought 4%N].
Proof. by vm_compute. Qed.

(** * Further properties of the code *)

(** ** The strategy on its own *)





(** The first trade an instance makes differs from its last action, and no
    two neighbouring trades are of the same kind. *)
Lemma trades_alternate_from s inputs :
  (forall k, head (omap tradable (evaluate_all s inputs)) = Some k ->
             match lastAction s with
             | LastBuy => k <> Buy
             | LastSell => k <> Sell
             | LastWait => True
             end)
  /\ (forall i k1 k2,
        omap tradable (evaluate_all s inputs) !! i = Some k1 ->
        omap tradable (evaluate_all s inputs) !! S i = Some k2 ->
        k1 <> k2).
Proof.
  revert s. induction inputs as [|[tick bal] rest IH]; intros s.
  { simpl. split; [done|]. intros i ? ?. by rewrite lookup_nil. }
  cbn [evaluate_all].
  pose proof (evaluate_sound s tick bal) as Hstep.
  destruct (evaluate s tick bal) as [a s'] eqn:E. cbn [fst snd] in *.
  destruct (IH s') as [IHhead IHadj].
  inversion Hstep; subst; simpl.
  - done.
  - split.
    + intros k [= <-]. by destruct (lastAction s).
    + intros [|i] k1 k2; cbn [lookup list_lookup]; intros Hk1 Hk2.
      * simplify_eq. specialize (IHhead k2). rewrite head_lookup in IHhead.
        specialize (IHhead Hk2). simpl in IHhead. congruence.
      * by eapply IHadj.
  - split.
    + intros k [= <-]. by destruct (lastAction s).
    + intros [|i] k1 k2; cbn [lookup list_lookup]; intros Hk1 Hk2.
      * simplify_eq. specialize (IHhead k2). rewrite head_lookup in IHhead.
        specialize (IHhead Hk2). simpl in IHhead. congruence.
      * by eapply IHadj.
  - done.
Qed.

Lemma tradable_kinds a k : tradable a = Some k -> k = Buy \/ k = Sell.
Proof.
  unfold tradable. repeat case_match; intros; simplify_eq; auto.
Qed.

(** X2. On one strategy instance trades alternate: of the trades returned
    over any series of evaluations (waits left out), two neighbours are
    always a buy and a sell, never two buys or two sells.  A wait never
    re-arms a buy, because [lastAction] is set by trades only. *)
Theorem trades_alternate s inputs i k1 k2 :
  omap tradable (evaluate_all s inputs) !! i = Some k1 ->
  omap tradable (evaluate_all s inputs) !! S i = Some k2 ->
  (k1 = Buy /\ k2 = Sell) \/ (k1 = Sell /\ k2 = Buy).
Proof.
  intros Hk1 Hk2.
  pose proof (proj2 (trades_alternate_from s inputs) i k1 k2 Hk1 Hk2) as Hne.
  assert (forall j k, omap tradable (evaluate_all s inputs) !! j = Some k ->
                      k = Buy \/ k = Sell) as Hkinds.
  { intros j k Hj. apply list_elem_of_lookup_2 in Hj.
    apply list_elem_of_omap in Hj as (a & _ & Ha).
    by eapply tradable_kinds. }
  destruct (Hkinds _ _ Hk1), (Hkinds _ _ Hk2); subst; tauto.
Qed.

Lemma trades_alternate_witness :
  (Buy = Buy /\ Sell = Sell) \/ (Buy = Sell /\ Sell = Buy).
Proof.
  apply (trades_alternate (new_SimpleTraderStrategy no_parameters)
           [(tick_at 85, 1%Q); (tick_at 85, 1%Q); (tick_at 100, 1%Q);
            (tick_at 115, 1%Q); (tick_at 85, 1%Q)] 0 Buy Sell);
    reflexivity.
Defined.

Lemma or_else_idempotent p d :
  Qeq_bool d 0 = false ->
  JS.or_else (JS.opt_or_else p d) d = JS.opt_or_else p d.
Proof.
  intros Hd. destruct p as [x|]; simpl; unfold JS.or_else.
  - destruct (Qeq_bool x 0) eqn:E; [by rewrite Hd | by rewrite E].
  - by rewrite Hd.
Qed.

(** X3. [getConfig] round-trips: a strategy built from the parameters that
    [getConfig] reports for a constructed strategy is that strategy again,
    defaults included, and no constructed threshold or minimum is zero. *)
Theorem getConfig_round_trip p :
  new_SimpleTraderStrategy (parameters (getConfig (new_SimpleTraderStrategy p)))
  = new_SimpleTraderStrategy p
  /\ ~ (buyThreshold (new_SimpleTraderStrategy p) == 0)%Q
  /\ ~ (sellThreshold (new_SimpleTraderStrategy p) == 0)%Q
  /\ ~ (minBalance (new_SimpleTraderStrategy p) == 0)%Q.
Proof.
  split.
  - unfold new_SimpleTraderStrategy, getConfig. simpl.
    by rewrite !or_else_idempotent.
  - assert (forall o d, Qeq_bool d 0 = false ->
                        ~ (JS.opt_or_else o d == 0)%Q) as Hnz.
    { intros o d Hd Hz. apply Qeq_bool_iff in Hz.
      destruct o as [x|]; simpl in Hz; unfold JS.or_else in Hz.
      - destruct (Qeq_bool x 0) eqn:E; congruence.
      - congruence. }
    repeat split; by apply Hnz.
Qed.

(** ** The creation form *)

Lemma or_else_nonzero x d : ~ (x == 0)%Q -> JS.or_else x d = x.
Proof.
  intros Hx. unfold JS.or_else.
  destruct (Qeq_bool x 0) eqn:E; [|done]. by apply Qeq_bool_iff in E.
Qed.

Lemma or_else_positive x d : (0 <= x)%Q -> (0 < d)%Q -> (0 < JS.or_else x d)%Q.
Proof.
  intros Hx Hd. unfold JS.or_else.
  destruct (Qeq_bool x 0) eqn:E; [done|].
  destruct (Qle_lt_or_eq _ _ Hx) as [|Heq]; [done|].
  symmetry in Heq. apply Qeq_bool_iff in Heq. congruence.
Qed.

(** X4. The creation form submits a strategy only when all three fields are
    numbers, buyThreshold < sellThreshold and minBalance >= 0, and it submits
    the numbers as entered.  The strategy instance built from a submitted
    configuration always has a positive minBalance (an entered 0 becomes
    0.1), and has buyThreshold < sellThreshold whenever neither threshold was
    entered as 0. *)
Theorem form_submits_only_valid ty b s m cfg :
  handleCreate ty b s m = Submit cfg ->
  exists b' s' m',
    b = Some b' /\ s = Some s' /\ m = Some m' /\
    (b' < s')%Q /\ (0 <= m')%Q /\
    cfg = {| strategy_type := ty;
             parameters := {| param_buyThreshold := Some b';
                              param_sellThreshold := Some s';
                              param_minBalance := Some m' |} |} /\
    (0 < minBalance (createStrategyInstance cfg))%Q /\
    (~ (b' == 0)%Q -> ~ (s' == 0)%Q ->
     (buyThreshold (createStrategyInstance cfg)
      < sellThreshold (createStrategyInstance cfg))%Q).
Proof.
  unfold handleCreate.
  destruct b as [b'|], s as [s'|], m as [m'|]; try done.
  destruct (JS.geb b' s') eqn:Hge; [done|].
  destruct (JS.ltb m' 0) eqn:Hm; [done|].
  intros [= <-]. exists b', s', m'.
  apply JS_ltb_ge in Hm.
  assert (b' < s')%Q as Hlt.
  { apply Qnot_le_lt. intros Hle. apply JS_geb_ge in Hle. congruence. }
  repeat split; try done.
  - destruct ty; simpl; by apply or_else_positive.
  - intros Hb Hs. destruct ty; simpl; by rewrite !or_else_nonzero.
Qed.

Lemma form_submits_only_valid_witness :
  exists b' s' m',
    Some 90%Q = Some b' /\ Some 110%Q = Some s' /\ Some 0%Q = Some m' /\
    (b' < s')%Q /\ (0 <= m')%Q /\
    {| strategy_type := SimpleTrader;
       parameters := {| param_buyThreshold := Some 90%Q;
                        param_sellThreshold := Some 110%Q;
                        param_minBalance := Some 0%Q |} |}
    = {| strategy_type := SimpleTrader;
         parameters := {| param_buyThreshold := Some b';
                          param_sellThreshold := Some s';
                          param_minBalance := Some m' |} |} /\
    (0 < minBalance (createStrategyInstance
           {| strategy_type := SimpleTrader;
              parameters := {| param_buyThreshold := Some 90%Q;
                               param_sellThreshold := Some 110%Q;
                               param_minBalance := Some 0%Q |} |}))%Q /\
    (~ (b' == 0)%Q -> ~ (s' == 0)%Q ->
     (buyThreshold (createStrategyInstance
           {| strategy_type := SimpleTrader;
              parameters := {| param_buyThreshold := Some 90%Q;
                               param_sellThreshold := Some 110%Q;
                               param_minBalance := Some 0%Q |} |})
      < sellThreshold (createStrategyInstance
           {| strategy_type := SimpleTrader;
              parameters := {| param_buyThreshold := Some 90%Q;
                               param_sellThreshold := Some 110%Q;
                               param_minBalance := Some 0%Q |} |}))%Q).
Proof.
  apply (form_submits_only_valid SimpleTrader (Some 90%Q) (Some 110%Q)
           (Some 0%Q)).
  reflexivity.
Defined.

(** With the buy threshold entered as 0 the form is satisfied (0 < 50), yet
    the instance trades with the default 90 above its sell threshold 50. *)
Example zero_threshold_passes_the_form :
  handleCreate SimpleTrader (Some 0%Q) (Some 50%Q) (Some (1#10)%Q)
  = Submit {| strategy_type := SimpleTrader;
              parameters := {| param_buyThreshold := Some 0%Q;
                               param_sellThreshold := Some 50%Q;
                               param_minBalance := Some (1#10)%Q |} |}
  /\ buyThreshold (createStrategyInstance
       {| strategy_type := SimpleTrader;
          parameters := {| param_buyThreshold := Some 0%Q;
                           param_sellThreshold := Some 50%Q;
                           param_minBalance := Some (1#10)%Q |} |}) = 90%Q
  /\ sellThreshold (createStrategyInstance
       {| strategy_type := SimpleTrader;
          parameters := {| param_buyThreshold := Some 0%Q;
                           param_sellThreshold := Some 50%Q;
                           param_minBalance := Some (1#10)%Q |} |}) = 50%Q.
Proof. by vm_compute. Qed.

(** ** The wallet ledger *)

(** X5. [updateBalance] and [updateTokenBalances] never fail; each replaces
    exactly one field of exactly one wallet (the other field, the key, the
    creation date, every other wallet and all agents are as before), and
    for a key that is not in the ledger they do nothing at all. *)
Theorem ledger_updates_are_local pk b tbs w :
  fst (updateBalance pk b w) = inr tt
  /\ wallets (snd (updateBalance pk b w)) !! pk
     = (fun wallet => set_balance wallet b) <$> wallets w !! pk
  /\ (forall pk', pk' <> pk ->
        wallets (snd (updateBalance pk b w)) !! pk' = wallets w !! pk')
  /\ agents (snd (updateBalance pk b w)) = agents w
  /\ fst (updateTokenBalances pk tbs w) = inr tt
  /\ wallets (snd (updateTokenBalances pk tbs w)) !! pk
     = (fun wallet => set_tokenBalances wallet tbs) <$> wallets w !! pk
  /\ (forall pk', pk' <> pk ->
        wallets (snd (updateTokenBalances pk tbs w)) !! pk' = wallets w !! pk')
  /\ agents (snd (updateTokenBalances pk tbs w)) = agents w
  /\ (wallets w !! pk = None ->
      snd (updateBalance pk b w) = w /\ snd (updateTokenBalances pk tbs w) = w).
Proof.
  unfold updateBalance, updateTokenBalances. rewrite !bind_gets.
  destruct (wallets w !! pk) as [wallet|] eqn:Hw; simpl.
  - rewrite !lookup_insert_eq. repeat split; try done.
    + intros pk' Hne. by rewrite lookup_insert_ne.
    + intros pk' Hne. by rewrite lookup_insert_ne.
  - rewrite Hw. repeat split; done.
Qed.

Lemma ledger_updates_are_local_witness :
  snd (updateBalance "nobody" 5 funded_world) = funded_world
  /\ snd (updateTokenBalances "nobody" [] funded_world) = funded_world.
Proof.
  apply (ledger_updates_are_local "nobody" 5 [] funded_world).
  by vm_compute.
Defined.

(** X6. [deleteWallet] asks the key store first: when the key store
    refuses, the call fails with its error and the ledger is untouched; when
    it agrees, exactly that wallet leaves the ledger, and no agent is
    touched, not even one that refers to the wallet. *)
Theorem deleteWallet_effect answer pk w :
  (forall msg, answer = inl msg ->
     deleteWallet answer pk w = (inl (External msg), w))
  /\ (answer = inr tt ->
      fst (deleteWallet answer pk w) = inr tt
      /\ wallets (snd (deleteWallet answer pk w)) !! pk = None
      /\ (forall pk', pk' <> pk ->
            wallets (snd (deleteWallet answer pk w)) !! pk' = wallets w !! pk')
      /\ agents (snd (deleteWallet answer pk w)) = agents w
      /\ ctrl (snd (deleteWallet answer pk w)) = ctrl w).
Proof.
  unfold deleteWallet. split.
  - intros msg ->. reflexivity.
  - intros ->. cbn [external]. rewrite bind_ret. simpl.
    rewrite lookup_delete_eq. repeat split; try done.
    intros pk' Hne. by rewrite lookup_delete_ne.
Qed.

Lemma deleteWallet_effect_witness :
  deleteWallet (inl "locked") "Wallet1" funded_world
  = (inl (External "locked"), funded_world)
  /\ wallets (snd (deleteWallet (inr tt) "Wallet1" funded_world)) !! "Wallet1"
     = None.
Proof.
  split.
  - by apply (proj1 (deleteWallet_effect (inl "locked") "Wallet1" funded_world)).
  - by apply (proj2 (deleteWallet_effect (inr tt) "Wallet1" funded_world)).
Defined.

(** ** The swap executor: what the caller is told *)

(** X7. The "Insufficient SOL balance" error that [validateAccounts] throws
    is caught inside it and never reaches a caller: [validateAccounts]
    itself never fails, no error of [executeSwap] has it as a cause, and a
    buy for more than the balance is reported as "Swap execution failed:
    Failed to construct swap instruction: Invalid accounts for swap". *)
Theorem insufficient_balance_never_reported ext params pk w :
  fst (validateAccounts pk params w) = inr (accounts_ok w pk params)
  /\ (forall e, fst (executeSwap ext params pk w) = inl e ->
                caused_by_insufficient_balance e = false)
  /\ (forall wallet,
        validPublicKey ext pk = true ->
        fromToken params = "SOL" ->
        wallets w !! pk = Some wallet ->
        (balance wallet < swap_amount params)%Q ->
        exists e,
          fst (executeSwap ext params pk w) = inl e /\
          message e = "Swap execution failed: Failed to construct swap instruction: Invalid accounts for swap").
Proof.
  split; [by rewrite validateAccounts_spec|]. split.
  - intros e. rewrite executeSwap_spec.
    repeat case_match; simpl; intros; simplify_eq; done.
  - intros wallet Hkey Hsol Hw Hlt. exists invalid_accounts_error.
    split; [|reflexivity].
    rewrite executeSwap_spec, Hkey.
    assert (accounts_ok w pk params = false) as ->; [|done].
    apply accounts_ok_false. right. eauto.
Qed.

Lemma insufficient_balance_never_reported_witness :
  exists e,
    fst (executeSwap (outside 3 85 1)
           {| fromToken := "SOL"; toToken := "TOKEN"; swap_amount := 2;
              slippage := 1 |} "Wallet1" funded_world) = inl e /\
    message e = "Swap execution failed: Failed to construct swap instruction: Invalid accounts for swap".
Proof.
  apply (proj2 (proj2 (insufficient_balance_never_reported (outside 3 85 1)
           {| fromToken := "SOL"; toToken := "TOKEN"; swap_amount := 2;
              slippage := 1 |} "Wallet1" funded_world))
           (agent_wallet funded_world)).
  - reflexivity.
  - reflexivity.
  - by vm_compute.
  - by vm_compute.
Defined.

(** ** Keys and references *)

Section FineFrame.
Context (I : World -> Prop).
Hypothesis I_balance : forall pk wallet b w,
  wallets w !! pk = Some wallet ->
  I w -> I (with_wallets (insert pk (set_balance wallet b)) w).
Hypothesis I_tokens : forall pk wallet tbs w,
  wallets w !! pk = Some wallet ->
  I w -> I (with_wallets (insert pk (set_tokenBalances wallet tbs)) w).
Hypothesis I_log : forall id a activity w,
  agents w !! id = Some a ->
  I w ->
  I (with_agents
       (insert id (set_activityLog a (push_capped (activityLog a) activity)))
       w).

Lemma keeps_updateBalance pk b : preserves I (updateBalance pk b).
Proof.
  intros w Hw. unfold updateBalance. rewrite bind_gets.
  destruct (wallets w !! pk) eqn:E; [by apply I_balance | done].
Qed.

Lemma keeps_updateTokenBalances pk tbs : preserves I (updateTokenBalances pk tbs).
Proof.
  intros w Hw. unfold updateTokenBalances. rewrite bind_gets.
  destruct (wallets w !! pk) eqn:E; [by apply I_tokens | done].
Qed.

Lemma keeps_updateWalletBalance ext pk : preserves I (updateWalletBalance ext pk).
Proof.
  unfold updateWalletBalance.
  preserve_with ltac:(first [ apply keeps_updateBalance
                            | apply keeps_updateTokenBalances ]).
Qed.

Lemma keeps_executeSwap ext params pk : preserves I (executeSwap ext params pk).
Proof.
  intros w Hw. rewrite executeSwap_spec.
  repeat case_match; simpl; try done.
  unfold updateBalancesAfterSwap. case_match; [|done].
  by apply keeps_updateBalance.
Qed.

Lemma keeps_executeDecisionCycle ext id : preserves I (executeDecisionCycle ext id).
Proof.
  unfold executeDecisionCycle, getWallet, executeTrade.
  preserve_with ltac:(first [ apply (preserves_logActivity I I_log)
                            | apply keeps_executeSwap
                            | apply keeps_updateWalletBalance ]).
Qed.
End FineFrame.

Lemma well_keyed_same w w' :
  wallets w' = wallets w -> agents w' = agents w ->
  well_keyed w -> well_keyed w'.
Proof. unfold well_keyed. by intros -> ->. Qed.

Lemma well_keyed_insert_agent id a w :
  agent_id a = id -> is_Some (wallets w !! walletPublicKey a) ->
  well_keyed w -> well_keyed (with_agents (insert id a) w).
Proof.
  intros Hid Hwal [Hw Ha]. split; [done|]. simpl.
  intros j b. rewrite lookup_insert. case_decide; intros; simplify_eq; eauto.
Qed.

Lemma well_keyed_delete_agent id w :
  well_keyed w -> well_keyed (with_agents (delete id) w).
Proof.
  intros [Hw Ha]. split; [done|]. simpl.
  intros j b. rewrite lookup_delete. case_decide; [done|]. apply Ha.
Qed.

Lemma well_keyed_insert_wallet pk wallet w :
  publicKey wallet = pk ->
  well_keyed w -> well_keyed (with_wallets (insert pk wallet) w).
Proof.
  intros Hpk [Hw Ha]. split; simpl.
  - intros pk' wallet'. rewrite lookup_insert.
    case_decide; intros; simplify_eq; eauto.
  - intros id a Hid. destruct (Ha id a Hid) as [? [wl Hwl]]. split; [done|].
    rewrite lookup_insert. case_decide; eauto.
Qed.

Lemma well_keyed_balance pk wallet b w :
  wallets w !! pk = Some wallet ->
  well_keyed w -> well_keyed (with_wallets (insert pk (set_balance wallet b)) w).
Proof.
  intros Hw Hk. apply well_keyed_insert_wallet; [|done].
  simpl. by apply (proj1 Hk).
Qed.

Lemma well_keyed_tokens pk wallet tbs w :
  wallets w !! pk = Some wallet ->
  well_keyed w ->
  well_keyed (with_wallets (insert pk (set_tokenBalances wallet tbs)) w).
Proof.
  intros Hw Hk. apply well_keyed_insert_wallet; [|done].
  simpl. by apply (proj1 Hk).
Qed.

Lemma well_keyed_log id a activity w :
  agents w !! id = Some a ->
  well_keyed w ->
  well_keyed
    (with_agents
       (insert id (set_activityLog a (push_capped (activityLog a) activity))) w).
Proof.
  intros Ha Hk. destruct (proj2 Hk id a Ha) as [? ?].
  by apply well_keyed_insert_agent.
Qed.

Lemma well_keyed_cycle ext id : preserves well_keyed (executeDecisionCycle ext id).
Proof.
  apply (keeps_executeDecisionCycle _ well_keyed_balance well_keyed_tokens
           well_keyed_log).
Qed.

Lemma well_keyed_startAgent ext id : preserves well_keyed (startAgent ext id).
Proof.
  intros w Hw. unfold startAgent. rewrite bind_gets.
  destruct (agents w !! id) as [a|] eqn:Ha; [|done].
  destruct (Status_eqb (status a) Active); [done|].
  destruct (proj2 Hw id a Ha) as [Hid Hwal].
  rewrite !bind_modify.
  erewrite bind_ok; last first.
  { apply logActivity_registered. simpl. apply lookup_insert_eq. }
  unfold startDecisionLoop. rewrite bind_modify.
  apply well_keyed_cycle.
  eapply well_keyed_same; [reflexivity | reflexivity |].
  apply well_keyed_insert_agent; [done | done |].
  by apply well_keyed_insert_agent.
Qed.

Lemma well_keyed_stopAgent ext id : preserves well_keyed (stopAgent ext id).
Proof.
  intros w Hw. destruct (agents w !! id) as [a|] eqn:Ha.
  - rewrite (stopAgent_registered _ _ _ _ Ha). cbn [snd].
    destruct (proj2 Hw id a Ha) as [Hid Hwal].
    apply well_keyed_insert_agent; [done | |].
    + simpl. unfold clearDecisionInterval. by case_match.
    + eapply well_keyed_same; [| |exact Hw]; simpl;
        unfold clearDecisionInterval; by case_match.
  - by rewrite (stopAgent_missing _ _ _ Ha).
Qed.

Lemma well_keyed_perform ext op : preserves well_keyed (perform ext op).
Proof.
  destruct op as [cfg|id|id| |id|id|pk]; simpl.
  - intros w Hw. rewrite run_bind.
    destruct (storeKey ext) as [msg|[]] eqn:Hstore.
    + unfold createAgent, createWallet. rewrite run_bind, run_bind, Hstore.
      done.
    + unfold createAgent.
      rewrite (bind_ok _ _ _ _ _ (createWallet_ok _ _ Hstore)).
      rewrite bind_modify.
      erewrite bind_ok; last first.
      { apply logActivity_registered. simpl. apply lookup_insert_eq. }
      unfold gets. cbn [snd].
      apply well_keyed_insert_agent; [done | |].
      { simpl. rewrite lookup_insert_eq. eauto. }
      apply well_keyed_insert_agent; [done | |].
      { simpl. rewrite lookup_insert_eq. eauto. }
      by apply well_keyed_insert_wallet.
  - apply well_keyed_startAgent.
  - apply well_keyed_stopAgent.
  - unfold stopAllAgents.
    preserve_with ltac:(apply well_keyed_stopAgent).
  - unfold deleteAgent.
    preserve_with ltac:(first [ apply well_keyed_stopAgent
                              | apply preserves_modify;
                                apply well_keyed_delete_agent ]).
  - apply well_keyed_cycle.
  - apply (keeps_updateWalletBalance _ well_keyed_balance well_keyed_tokens).
Qed.

Lemma reachable_well_keyed w : reachable w -> well_keyed w.
Proof.
  induction 1 as [|w ext op _ IH _].
  - split; intros ? ?; simpl; by rewrite lookup_empty.
  - by apply well_keyed_perform.
Qed.

(** X8. Under the controller's operations and balance refreshes (none of
    which removes a wallet) the registry and the ledger stay well keyed:
    every wallet is stored under its own public key, every agent under its
    own id, and every agent's [walletPublicKey] resolves to a wallet of the
    ledger. *)
Theorem registry_and_ledger_well_keyed w :
  reachable w ->
  (forall pk wallet, wallets w !! pk = Some wallet -> publicKey wallet = pk)
  /\ (forall id a, agents w !! id = Some a -> agent_id a = id)
  /\ (forall id a, agents w !! id = Some a ->
         is_Some (wallets w !! walletPublicKey a)).
Proof.
  intros [Hw Ha]%reachable_well_keyed.
  split; [done|]. split; intros id a Hid; by destruct (Ha id a Hid).
Qed.

Lemma registry_and_ledger_well_keyed_witness :
  (forall pk wallet,
     wallets busy_world !! pk = Some wallet -> publicKey wallet = pk)
  /\ (forall id a, agents busy_world !! id = Some a -> agent_id a = id)
  /\ (forall id a, agents busy_world !! id = Some a ->
         is_Some (wallets busy_world !! walletPublicKey a)).
Proof.
  apply (registry_and_ledger_well_keyed busy_world reachable_busy_world).
Defined.

(** ** One decision cycle, path by path *)

Lemma with_entry_registered id a entry w :
  agents w !! id = Some a ->
  logActivity id entry w = (inr tt, with_entry id a entry w).
Proof. apply logActivity_registered. Qed.

(** The four ways through a cycle of an active agent: no wallet, a wait, a
    trade that fails, a trade that goes through. *)
Lemma cycle_outcomes ext id w a :
  agents w !! id = Some a ->
  status a = Active ->
  match wallets w !! walletPublicKey a with
  | None =>
      executeDecisionCycle ext id w
      = (inr tt, with_entry id a (error_entry ext WalletNotFound) w)
  | Some wallet =>
      let decided := decided_action ext a wallet in
      match tradable decided with
      | None =>
          executeDecisionCycle ext id w
          = (inr tt, with_entry id a (decision_entry ext decided None) w)
      | Some kind =>
          match executeTrade ext (walletPublicKey a) kind
                  (JS.opt_or_else (amount (details decided)) (1#10)) w with
          | (inl e, _) =>
              executeDecisionCycle ext id w
              = (inr tt, with_entry id a (failed_trade_entry ext decided e) w)
          | (inr signature, w1) =>
              executeDecisionCycle ext id w
              = (inr tt,
                 snd (updateWalletBalance ext (walletPublicKey a)
                        (with_entry id a
                           (decision_entry ext decided (Some signature)) w1)))
          end
      end
  end.
Proof.
  intros Ha Hs.
  destruct (wallets w !! walletPublicKey a) as [wallet|] eqn:Hw.
  2:{ unfold executeDecisionCycle. erewrite try_fail.
      - by apply with_entry_registered.
      - rewrite bind_gets, Ha, Hs. cbn [Status_eqb negb].
        unfold getWallet. by rewrite bind_gets, Hw. }
  cbn zeta. unfold decided_action.
  destruct (tradable _) as [kind|] eqn:Hk.
  2:{ unfold executeDecisionCycle. erewrite try_ok; [reflexivity|].
      rewrite bind_gets, Ha, Hs. cbn [Status_eqb negb].
      unfold getWallet. rewrite bind_gets, Hw, Hk.
      by apply with_entry_registered. }
  destruct (executeTrade _ _ _ _ w) as [[e|sig] w1] eqn:Hx.
  - assert (w1 = w) as ->.
    { pose proof (f_equal snd Hx) as H2. cbn [snd] in H2. rewrite <- H2.
      unfold executeTrade. eapply executeSwap_failure_keeps_world.
      unfold executeTrade in Hx. by rewrite Hx. }
    unfold executeDecisionCycle. erewrite try_ok; [reflexivity|].
    rewrite bind_gets, Ha, Hs. cbn [Status_eqb negb].
    unfold getWallet. rewrite bind_gets, Hw, Hk.
    erewrite try_fail; [by apply with_entry_registered|].
    by rewrite (bind_fail _ _ _ _ _ Hx).
  - assert (agents w1 = agents w) as Hag.
    { pose proof (f_equal snd Hx) as H2. cbn [snd] in H2. rewrite <- H2.
      unfold executeTrade. apply agents_executeSwap. }
    unfold executeDecisionCycle. erewrite try_ok; [reflexivity|].
    rewrite bind_gets, Ha, Hs. cbn [Status_eqb negb].
    unfold getWallet. rewrite bind_gets, Hw, Hk.
    erewrite try_ok; [reflexivity|].
    rewrite (bind_ok _ _ _ _ _ Hx).
    erewrite bind_ok; last first.
    { apply with_entry_registered. by rewrite Hag. }
    pose proof (updateWalletBalance_returns ext (walletPublicKey a)
      (with_entry id a
         (decision_entry ext
            (fst (evaluate (createStrategyInstance (strategy a))
                    (marketTick ext) (balance wallet))) (Some sig)) w1)) as Hret.
    unfold decision_entry in *.
    destruct (updateWalletBalance _ _ _) as [[e|[]] w2]; cbn [fst snd] in *;
      done.
Qed.

Lemma ledger_updates_local_helper pk b tbs w :
  (forall pk', pk' <> pk ->
     wallets (snd (updateBalance pk b w)) !! pk' = wallets w !! pk')
  /\ (forall w0 pk', pk' <> pk ->
        wallets (snd (updateTokenBalances pk tbs w0)) !! pk' = wallets w0 !! pk').
Proof.
  unfold updateBalance, updateTokenBalances. split.
  - intros pk' Hne. rewrite bind_gets.
    destruct (wallets w !! pk); simpl; [by rewrite lookup_insert_ne | done].
  - intros w0 pk' Hne. rewrite bind_gets.
    destruct (wallets w0 !! pk); simpl; [by rewrite lookup_insert_ne | done].
Qed.

Lemma updateWalletBalance_spec ext pk w :
  updateWalletBalance ext pk w
  = (inr tt,
     match chainBalance ext, chainTokenBalances ext with
     | inr b, inr tbs => snd (updateTokenBalances pk tbs (snd (updateBalance pk b w)))
     | _, _ => w
     end).
Proof.
  unfold updateWalletBalance, try_catch.
  destruct (chainBalance ext) as [msg|b]; cbn [external].
  { by rewrite bind_throw. }
  rewrite bind_ret.
  destruct (chainTokenBalances ext) as [msg|tbs]; cbn [external].
  { by rewrite bind_throw. }
  rewrite bind_ret, run_bind.
  unfold updateBalance, updateTokenBalances. rewrite !bind_gets.
  destruct (wallets w !! pk); cbn [modify ret fst snd]; rewrite bind_gets;
    cbn [with_wallets wallets];
    by destruct (_ !! pk).
Qed.

Lemma updateWalletBalance_other_wallets ext pk pk' w :
  pk' <> pk ->
  wallets (snd (updateWalletBalance ext pk w)) !! pk' = wallets w !! pk'.
Proof.
  intros Hne. rewrite updateWalletBalance_spec. cbn [snd].
  destruct (chainBalance ext) as [|b], (chainTokenBalances ext) as [|tbs];
    try done.
  destruct (ledger_updates_local_helper pk b tbs w) as (H1 & H2).
  by rewrite H2, H1.
Qed.

Lemma executeSwap_other_wallets ext params pk pk' w :
  pk' <> pk ->
  wallets (snd (executeSwap ext params pk w)) !! pk' = wallets w !! pk'.
Proof.
  intros Hne. rewrite executeSwap_spec.
  repeat case_match; cbn [snd]; try done.
  unfold updateBalancesAfterSwap. case_match; [|done].
  by apply (proj1 (ledger_updates_local_helper pk
                     (balance_before w pk - swap_amount params) [] w)).
Qed.

Lemma set_balance_same wallet : set_balance wallet (balance wallet) = wallet.
Proof. by destruct wallet. Qed.

Lemma executeSwap_own_wallet ext params pk w wallet :
  wallets w !! pk = Some wallet ->
  exists b, wallets (snd (executeSwap ext params pk w)) !! pk
            = Some (set_balance wallet b).
Proof.
  intros Hw. rewrite executeSwap_spec.
  assert (wallets w !! pk = Some (set_balance wallet (balance wallet))) as Hsame
    by (by rewrite set_balance_same).
  repeat case_match; cbn [snd]; eauto.
  unfold updateBalancesAfterSwap. case_match; eauto.
  rewrite (updateBalance_known _ _ _ _ Hw). simpl.
  rewrite lookup_insert_eq. eauto.
Qed.

Lemma waits_are_not_trades s tick bal :
  tradable (fst (evaluate s tick bal)) = None ->
  type (fst (evaluate s tick bal)) = Wait.
Proof. unfold evaluate. by repeat case_match. Qed.

Lemma tradable_is_trade a k : tradable a = Some k -> type a = Trade.
Proof. unfold tradable. by repeat case_match. Qed.

(** X9. A decision cycle never lets an exception out, whatever the outside
    answers; and for an id that is not registered, or an agent that is not
    active, it does nothing at all: no log entry, no ledger access. *)
Theorem decision_cycle_is_contained ext id w :
  fst (executeDecisionCycle ext id w) = inr tt
  /\ (agents w !! id = None -> snd (executeDecisionCycle ext id w) = w)
  /\ (forall a, agents w !! id = Some a -> status a <> Active ->
                snd (executeDecisionCycle ext id w) = w).
Proof.
  split; [apply executeDecisionCycle_returns|]. split.
  - intros Hnone. unfold executeDecisionCycle.
    erewrite try_ok; [reflexivity|]. by rewrite bind_gets, Hnone.
  - intros a Ha Hs. unfold executeDecisionCycle.
    erewrite try_ok; [reflexivity|]. rewrite bind_gets, Ha.
    by destruct (status a).
Qed.

Lemma decision_cycle_is_contained_witness :
  snd (executeDecisionCycle (outside 9 85 1) "agent_1_abc" funded_world)
  = funded_world.
Proof.
  apply (proj2 (proj2 (decision_cycle_is_contained (outside 9 85 1)
           "agent_1_abc" funded_world)) (agent_of funded_world "agent_1_abc"));
    by vm_compute.
Defined.

Lemma cycle_appends_one_entry ext id w a :
  agents w !! id = Some a ->
  status a = Active ->
  exists entry,
    agents (snd (executeDecisionCycle ext id w))
    = <[id := set_activityLog a (push_capped (activityLog a) entry)]> (agents w)
    /\ ctrl (snd (executeDecisionCycle ext id w)) = ctrl w
    /\ (forall pk, pk <> walletPublicKey a ->
          wallets (snd (executeDecisionCycle ext id w)) !! pk = wallets w !! pk).
Proof.
  intros Ha Hs. pose proof (cycle_outcomes ext id w a Ha Hs) as Hout.
  pose proof (ctrl_executeDecisionCycle ext id w) as Hctrl.
  destruct (wallets w !! walletPublicKey a) as [wallet|].
  2:{ rewrite Hout. eexists. split; [reflexivity|]. split; [|done].
      by rewrite Hout in Hctrl. }
  cbn zeta in Hout. destruct (tradable _) as [kind|].
  2:{ rewrite Hout. eexists. split; [reflexivity|]. split; [|done].
      by rewrite Hout in Hctrl. }
  pose proof (fun pk' => executeSwap_other_wallets ext
    {| fromToken := if match kind with Buy => true | _ => false end
                    then "SOL" else "TOKEN";
       toToken := if match kind with Buy => true | _ => false end
                  then "TOKEN" else "SOL";
       swap_amount := JS.opt_or_else
                        (amount (details (decided_action ext a wallet))) (1#10);
       slippage := 1 |} (walletPublicKey a) pk' w) as Hother.
  pose proof (agents_executeSwap ext
    {| fromToken := if match kind with Buy => true | _ => false end
                    then "SOL" else "TOKEN";
       toToken := if match kind with Buy => true | _ => false end
                  then "TOKEN" else "SOL";
       swap_amount := JS.opt_or_else
                        (amount (details (decided_action ext a wallet))) (1#10);
       slippage := 1 |} (walletPublicKey a) w) as Hag.
  unfold executeTrade in Hout.
  destruct (executeSwap _ _ _ w) as [[e|sig] w1]; cbn [snd] in *.
  - rewrite Hout. eexists. split; [reflexivity|]. split; [|done].
    by rewrite Hout in Hctrl.
  - rewrite Hout in *. cbn [snd] in *. eexists. split; [|split; [done|]].
    + rewrite agents_updateWalletBalance. unfold with_entry. simpl.
      by rewrite Hag.
    + intros pk Hpk. rewrite updateWalletBalance_other_wallets by done.
      simpl. by apply Hother.
Qed.

(** X10. A decision cycle of an active agent appends exactly one entry to
    that agent's log and changes nothing else in the registry: the agent's
    status, wallet reference and strategy, every other agent, the active
    set and all intervals are as before; and in the ledger only the agent's
    own wallet can differ. *)
Theorem decision_cycle_logs_exactly_once ext id w a :
  agents w !! id = Some a ->
  status a = Active ->
  exists entry,
    agents (snd (executeDecisionCycle ext id w))
    = <[id := set_activityLog a (push_capped (activityLog a) entry)]> (agents w)
    /\ ctrl (snd (executeDecisionCycle ext id w)) = ctrl w
    /\ (forall pk, pk <> walletPublicKey a ->
          wallets (snd (executeDecisionCycle ext id w)) !! pk = wallets w !! pk).
Proof. apply cycle_appends_one_entry. Qed.

Lemma decision_cycle_logs_exactly_once_witness :
  exists entry,
    agents (snd (executeDecisionCycle (outside 300 85 1) "agent_1_abc"
                   busy_world))
    = <["agent_1_abc" :=
          set_activityLog (agent_of busy_world "agent_1_abc")
            (push_capped (activityLog (agent_of busy_world "agent_1_abc"))
               entry)]> (agents busy_world)
    /\ ctrl (snd (executeDecisionCycle (outside 300 85 1) "agent_1_abc"
                    busy_world)) = ctrl busy_world
    /\ (forall pk, pk <> walletPublicKey (agent_of busy_world "agent_1_abc") ->
          wallets (snd (executeDecisionCycle (outside 300 85 1) "agent_1_abc"
                          busy_world)) !! pk = wallets busy_world !! pk).
Proof.
  apply (decision_cycle_logs_exactly_once (outside 300 85 1) "agent_1_abc"
           busy_world (agent_of busy_world "agent_1_abc")); by vm_compute.
Defined.

Lemma log_of_with_entry id a entry w :
  log_of (with_entry id a entry w) id = push_capped (activityLog a) entry.
Proof. unfold log_of, with_entry. simpl. by rewrite lookup_insert_eq. Qed.

(** X11. Nothing keeps a wallet that an active agent refers to from being
    deleted, and the agent is not stopped by it: its next cycle returns
    normally, logs the failure "Decision cycle failed: Wallet not found",
    and leaves the agent active with its interval in place. *)
Theorem cycle_after_wallet_deletion ext id w a :
  agents w !! id = Some a ->
  status a = Active ->
  let gone := snd (deleteWallet (inr tt) (walletPublicKey a) w) in
  executeDecisionCycle ext id gone
  = (inr tt, with_entry id a (error_entry ext WalletNotFound) gone)
  /\ decision (error_entry ext WalletNotFound)
     = Text "Decision cycle failed: Wallet not found"
  /\ result (error_entry ext WalletNotFound) = Failure
  /\ ctrl (snd (executeDecisionCycle ext id gone)) = ctrl w
  /\ status <$> agents (snd (executeDecisionCycle ext id gone)) !! id
     = Some Active.
Proof.
  intros Ha Hs gone.
  assert (agents gone !! id = Some a) as Ha' by done.
  assert (wallets gone !! walletPublicKey a = None) as Hw
    by (simpl; apply lookup_delete_eq).
  pose proof (cycle_outcomes ext id gone a Ha' Hs) as Hout.
  rewrite Hw in Hout. split; [done|]. split; [done|]. split; [done|].
  split.
  - by rewrite ctrl_executeDecisionCycle.
  - rewrite Hout. simpl. rewrite lookup_insert_eq. simpl. by rewrite Hs.
Qed.

Lemma cycle_after_wallet_deletion_witness :
  let gone := snd (deleteWallet (inr tt)
                     (walletPublicKey (agent_of busy_world "agent_1_abc"))
                     busy_world) in
  executeDecisionCycle (outside 300 85 1) "agent_1_abc" gone
  = (inr tt,
     with_entry "agent_1_abc" (agent_of busy_world "agent_1_abc")
       (error_entry (outside 300 85 1) WalletNotFound) gone)
  /\ decision (error_entry (outside 300 85 1) WalletNotFound)
     = Text "Decision cycle failed: Wallet not found"
  /\ result (error_entry (outside 300 85 1) WalletNotFound) = Failure
  /\ ctrl (snd (executeDecisionCycle (outside 300 85 1) "agent_1_abc" gone))
     = ctrl busy_world
  /\ status <$> agents (snd (executeDecisionCycle (outside 300 85 1)
                               "agent_1_abc" gone)) !! "agent_1_abc"
     = Some Active.
Proof.
  apply (cycle_after_wallet_deletion (outside 300 85 1) "agent_1_abc"
           busy_world (agent_of busy_world "agent_1_abc")); by vm_compute.
Defined.

(** X12. A decision cycle of an active agent changes the ledger only when
    its trade went through: if the entry it logged is a failure, or is not
    a trade, every wallet is exactly as before the cycle. *)
Theorem ledger_changes_only_on_successful_trade ext id w a entry :
  agents w !! id = Some a ->
  status a = Active ->
  last (log_of (snd (executeDecisionCycle ext id w)) id) = Some entry ->
  result entry = Failure \/ act_action entry <> "trade" ->
  wallets (snd (executeDecisionCycle ext id w)) = wallets w.
Proof.
  intros Ha Hs Hlast Hentry.
  pose proof (cycle_outcomes ext id w a Ha Hs) as Hout.
  destruct (wallets w !! walletPublicKey a) as [wallet|].
  2:{ by rewrite Hout. }
  cbn zeta in Hout. destruct (tradable _) as [kind|] eqn:Hk.
  2:{ by rewrite Hout. }
  pose proof (agents_executeSwap ext
    {| fromToken := if match kind with Buy => true | _ => false end
                    then "SOL" else "TOKEN";
       toToken := if match kind with Buy => true | _ => false end
                  then "TOKEN" else "SOL";
       swap_amount := JS.opt_or_else
                        (amount (details (decided_action ext a wallet))) (1#10);
       slippage := 1 |} (walletPublicKey a) w) as Hag.
  unfold executeTrade in Hout.
  destruct (executeSwap _ _ _ w) as [[e|sig] w1]; cbn [snd] in *.
  { by rewrite Hout. }
  exfalso. rewrite Hout in Hlast. cbn [snd] in Hlast.
  unfold log_of in Hlast. rewrite agents_updateWalletBalance in Hlast.
  unfold with_entry in Hlast. simpl in Hlast.
  rewrite lookup_insert_eq in Hlast. simpl in Hlast.
  rewrite push_capped_last in Hlast. injection Hlast as <-.
  simpl in Hentry. rewrite (tradable_is_trade _ _ Hk) in Hentry.
  destruct Hentry; done.
Qed.

Lemma ledger_changes_only_on_successful_trade_witness :
  wallets (snd (executeDecisionCycle (outside 300 100 7) "agent_1_abc"
                  busy_world)) = wallets busy_world.
Proof.
  apply (ledger_changes_only_on_successful_trade (outside 300 100 7)
           "agent_1_abc" busy_world (agent_of busy_world "agent_1_abc")
           (decision_entry (outside 300 100 7)
              (wait_action (PriceWithinNormalRange 100 90 110)) None)).
  - by vm_compute.
  - by vm_compute.
  - by vm_compute.
  - right. by vm_compute.
Defined.

(** X13. When a cycle's trade goes through and the RPC answers the refresh,
    the ledger ends with the chain's figures: the wallet's balance and
    token balances are the ones the RPC returned, whatever the swap had
    written locally; key and creation date are kept. *)
Theorem successful_trade_cycle_takes_chain_balance
    ext id w a wallet entry onchain tbs :
  agents w !! id = Some a ->
  status a = Active ->
  wallets w !! walletPublicKey a = Some wallet ->
  chainBalance ext = inr onchain ->
  chainTokenBalances ext = inr tbs ->
  last (log_of (snd (executeDecisionCycle ext id w)) id) = Some entry ->
  act_action entry = "trade" ->
  result entry = Success ->
  wallets (snd (executeDecisionCycle ext id w)) !! walletPublicKey a
  = Some {| publicKey := publicKey wallet; createdAt := createdAt wallet;
            balance := onchain; tokenBalances := tbs |}.
Proof.
  intros Ha Hs Hw Hb Ht Hlast Hact Hres.
  pose proof (cycle_outcomes ext id w a Ha Hs) as Hout.
  rewrite Hw in Hout. cbn zeta in Hout.
  destruct (tradable _) as [kind|] eqn:Hk.
  2:{ exfalso. rewrite Hout in Hlast. cbn [snd] in Hlast.
      rewrite log_of_with_entry, push_capped_last in Hlast.
      injection Hlast as <-. simpl in Hact.
      unfold decided_action in *.
      by rewrite (waits_are_not_trades _ _ _ Hk) in Hact. }
  pose proof (executeSwap_own_wallet ext
    {| fromToken := if match kind with Buy => true | _ => false end
                    then "SOL" else "TOKEN";
       toToken := if match kind with Buy => true | _ => false end
                  then "TOKEN" else "SOL";
       swap_amount := JS.opt_or_else
                        (amount (details (decided_action ext a wallet))) (1#10);
       slippage := 1 |} (walletPublicKey a) w wallet Hw) as [b Hown].
  unfold executeTrade in Hout.
  destruct (executeSwap _ _ _ w) as [[e|sig] w1]; cbn [snd] in *.
  { exfalso. rewrite Hout in Hlast. cbn [snd] in Hlast.
    rewrite log_of_with_entry, push_capped_last in Hlast.
    by injection Hlast as <-. }
  rewrite Hout. cbn [snd]. rewrite updateWalletBalance_spec, Hb, Ht. cbn [snd].
  assert (wallets (with_entry id a
            (decision_entry ext (decided_action ext a wallet) (Some sig)) w1)
          !! walletPublicKey a = Some (set_balance wallet b)) as Hw1 by done.
  rewrite (updateBalance_known _ _ _ _ Hw1). cbn [snd].
  unfold updateTokenBalances. rewrite bind_gets. simpl.
  rewrite lookup_insert_eq. simpl. by rewrite lookup_insert_eq.
Qed.

Lemma successful_trade_cycle_takes_chain_balance_witness :
  wallets (snd (executeDecisionCycle (outside 4 85 7) "agent_1_abc"
                  started_world))
    !! walletPublicKey (agent_of started_world "agent_1_abc")
  = Some {| publicKey := publicKey (agent_wallet started_world);
            createdAt := createdAt (agent_wallet started_world);
            balance := 7; tokenBalances := [] |}.
Proof.
  apply (successful_trade_cycle_takes_chain_balance (outside 4 85 7)
           "agent_1_abc" started_world (agent_of started_world "agent_1_abc")
           (agent_wallet started_world)
           (decision_entry (outside 4 85 7)
              (trade_action Buy (Qmin (1 * (1#10)) (1#2))
                 (PriceBelowBuyThreshold 85 90 (Qmin (1 * (1#10)) (1#2))))
              (Some "mock_swap_4")) 7 []); by vm_compute.
Defined.

(** ** Starting and stopping *)

(** X14. Lifecycle calls for an id that is not registered fail with "Agent
    not found: <id>" and change nothing; starting an agent that is already
    active returns normally and changes nothing (no second interval, no log
    entry). *)
Theorem lifecycle_edge_cases ext id w :
  (agents w !! id = None ->
   startAgent ext id w = (inl (AgentNotFound id), w)
   /\ stopAgent ext id w = (inl (AgentNotFound id), w)
   /\ message (AgentNotFound id) = "Agent not found: " +:+ id)
  /\ (forall a, agents w !! id = Some a -> status a = Active ->
                startAgent ext id w = (inr tt, w)).
Proof.
  split.
  - intros Hnone. split; [by apply startAgent_missing|].
    split; [by apply stopAgent_missing | done].
  - intros a Ha Hs. by eapply startAgent_already_active.
Qed.

Lemma lifecycle_edge_cases_witness :
  startAgent (outside 300 85 1) "agent_1_abc" busy_world = (inr tt, busy_world)
  /\ stopAgent (outside 300 85 1) "nobody" busy_world
     = (inl (AgentNotFound "nobody"), busy_world).
Proof.
  split.
  - apply (proj2 (lifecycle_edge_cases (outside 300 85 1) "agent_1_abc"
                    busy_world) (agent_of busy_world "agent_1_abc"));
      by vm_compute.
  - apply (proj1 (lifecycle_edge_cases (outside 300 85 1) "nobody"
                    busy_world)). by vm_compute.
Defined.




Lemma not_active_unscheduled c id s :
  consistent c -> c_status c !! id = Some s -> s <> Active ->
  (id ∉ c_active c) /\ c_intervals c !! id = None.
Proof.
  intros (H1 & H2 & _) Hs Hne.
  assert (id ∉ c_active c) as Hid by (rewrite H1, Hs; congruence).
  split; [done|]. apply eq_None_not_Some. by rewrite H2.
Qed.

Lemma set_delete_absent id (l : list string) : id ∉ l -> set_delete id l = l.
Proof.
  intros Hid. unfold set_delete. induction l as [|x l IH]; [done|].
  apply not_elem_of_cons in Hid as [Hne Hl].
  rewrite filter_cons_True by congruence. by rewrite IH.
Qed.

Lemma set_delete_set_add id (l : list string) :
  id ∉ l -> set_delete id (set_add id l) = l.
Proof.
  intros Hid. unfold set_add. rewrite bool_decide_eq_false_2 by done.
  unfold set_delete. rewrite filter_app.
  rewrite (filter_cons_False _ id []) by (intros H; by apply H).
  rewrite filter_nil, app_nil_r. by apply set_delete_absent.
Qed.

(** X16. Stopping a registered agent always succeeds: the agent ends with
    status stopped, outside the active set and without an interval, and one
    "stopped" entry is appended to its log, also when it was already
    stopped.  In a reachable world, stopping an agent that is not active
    cancels nothing: the active set, the intervals and the host's timers
    are exactly as before. *)
Theorem stopAgent_effect ext id w a :
  reachable w ->
  agents w !! id = Some a ->
  fst (stopAgent ext id w) = inr tt
  /\ agents (snd (stopAgent ext id w))
     = <[id := set_activityLog (set_status a Stopped)
                 (push_capped (activityLog a) (stopped_entry ext))]> (agents w)
  /\ (id ∉ activeAgentIds (snd (stopAgent ext id w)))
  /\ decisionIntervals (snd (stopAgent ext id w)) !! id = None
  /\ (forall h, timers (snd (stopAgent ext id w)) !! h <> Some id)
  /\ wallets (snd (stopAgent ext id w)) = wallets w
  /\ (status a <> Active ->
      activeAgentIds (snd (stopAgent ext id w)) = activeAgentIds w
      /\ decisionIntervals (snd (stopAgent ext id w)) = decisionIntervals w
      /\ timers (snd (stopAgent ext id w)) = timers w).
Proof.
  intros Hreach Ha.
  pose proof (reachable_consistent _ Hreach) as Hc.
  pose proof (consistent_stop id _ Hc) as Hc'.
  rewrite <- (ctrl_stopAgent ext _ _ _ Ha) in Hc'.
  rewrite (stopAgent_registered _ _ _ _ Ha) in *. cbn [fst snd] in *.
  split; [done|]. split.
  { simpl. by rewrite agents_clearDecisionInterval. }
  assert (id ∉ set_delete id (activeAgentIds (clearDecisionInterval id w)))
    as Hnot by (rewrite elem_of_set_delete; tauto).
  split; [done|].
  destruct Hc' as (H1 & H2 & H3 & H4). simpl in *.
  assert (decisionIntervals (clearDecisionInterval id w) !! id = None) as Hint.
  { apply eq_None_not_Some. by rewrite H2. }
  split; [done|]. split.
  { intros h Hh. apply H3 in Hh. congruence. }
  split.
  { unfold clearDecisionInterval. by case_match. }
  intros Hs.
  destruct (not_active_unscheduled (ctrl w) id (status a) Hc) as [Hid Hnone];
    [by rewrite ctrl_status_lookup, Ha | done |].
  simpl in Hid, Hnone. unfold clearDecisionInterval. rewrite Hnone. simpl.
  split; [by apply set_delete_absent | done].
Qed.

Lemma stopAgent_effect_witness :
  fst (stopAgent (outside 9 85 1) "agent_1_abc" funded_world) = inr tt
  /\ agents (snd (stopAgent (outside 9 85 1) "agent_1_abc" funded_world))
     = <["agent_1_abc" :=
           set_activityLog
             (set_status (agent_of funded_world "agent_1_abc") Stopped)
             (push_capped (activityLog (agent_of funded_world "agent_1_abc"))
                (stopped_entry (outside 9 85 1)))]> (agents funded_world)
  /\ ("agent_1_abc"
      ∉ activeAgentIds (snd (stopAgent (outside 9 85 1) "agent_1_abc"
                               funded_world)))
  /\ decisionIntervals (snd (stopAgent (outside 9 85 1) "agent_1_abc"
                               funded_world)) !! "agent_1_abc" = None
  /\ (forall h, timers (snd (stopAgent (outside 9 85 1) "agent_1_abc"
                               funded_world)) !! h <> Some "agent_1_abc")
  /\ wallets (snd (stopAgent (outside 9 85 1) "agent_1_abc" funded_world))
     = wallets funded_world
  /\ (status (agent_of funded_world "agent_1_abc") <> Active ->
      activeAgentIds (snd (stopAgent (outside 9 85 1) "agent_1_abc"
                             funded_world)) = activeAgentIds funded_world
      /\ decisionIntervals (snd (stopAgent (outside 9 85 1) "agent_1_abc"
                                   funded_world))
         = decisionIntervals funded_world
      /\ timers (snd (stopAgent (outside 9 85 1) "agent_1_abc" funded_world))
         = timers funded_world).
Proof.
  apply (stopAgent_effect (outside 9 85 1) "agent_1_abc" funded_world
           (agent_of funded_world "agent_1_abc") reachable_funded_world).
  by vm_compute.
Defined.

(** X17. Start followed by stop gives the schedule back: for an agent that
    was not active in a reachable world, after [startAgent] and then
    [stopAgent] the active set, the intervals and the host's timers are
    exactly what they were before the start, and the agent is stopped. *)
Theorem start_then_stop_restores_schedule ext1 ext2 id w a :
  reachable w ->
  agents w !! id = Some a ->
  status a <> Active ->
  let w' := snd (stopAgent ext2 id (snd (startAgent ext1 id w))) in
  activeAgentIds w' = activeAgentIds w
  /\ decisionIntervals w' = decisionIntervals w
  /\ timers w' = timers w
  /\ status <$> agents w' !! id = Some Stopped.
Proof.
  intros Hreach Ha Hs w'.
  pose proof (reachable_consistent _ Hreach) as Hc.
  destruct (not_active_unscheduled (ctrl w) id (status a) Hc) as [Hid Hnone];
    [by rewrite ctrl_status_lookup, Ha | done |].
  assert (timers w !! nextHandle w = None) as Hfresh.
  { destruct (timers w !! nextHandle w) eqn:E; [|done].
    apply (proj2 (proj2 (proj2 Hc))) in E. simpl in E. lia. }
  destruct (startAgent_starts ext1 _ _ _ Ha Hs) as [_ Hstart].
  assert (is_Some (agents (snd (startAgent ext1 id w)) !! id)) as [a1 Ha1].
  { assert (c_status (ctrl (snd (startAgent ext1 id w))) !! id = Some Active)
      as Hst by (rewrite Hstart; simpl; apply lookup_insert_eq).
    rewrite ctrl_status_lookup in Hst.
    destruct (agents (snd (startAgent ext1 id w)) !! id); [eauto | done]. }
  pose proof (ctrl_stopAgent ext2 _ _ _ Ha1) as Hstop.
  rewrite Hstart in Hstop. fold w' in Hstop.
  injection Hstop as Hst Hact Hint Htim _.
  simpl in *. rewrite lookup_insert_eq in Htim.
  split; [by rewrite Hact, set_delete_set_add|].
  split; [by rewrite Hint, delete_insert_id|].
  split; [by rewrite Htim, delete_insert_id|].
  rewrite <- lookup_fmap, Hst. apply lookup_insert_eq.
Qed.

Lemma start_then_stop_restores_schedule_witness :
  let w' := snd (stopAgent (outside 9 85 1) "agent_1_abc"
                   (snd (startAgent (outside 3 85 1) "agent_1_abc"
                           funded_world))) in
  activeAgentIds w' = activeAgentIds funded_world
  /\ decisionIntervals w' = decisionIntervals funded_world
  /\ timers w' = timers funded_world
  /\ status <$> agents w' !! "agent_1_abc" = Some Stopped.
Proof.
  apply (start_then_stop_restores_schedule (outside 3 85 1) (outside 9 85 1)
           "agent_1_abc" funded_world (agent_of funded_world "agent_1_abc")
           reachable_funded_world); by vm_compute.
Defined.

(** ** Deleting, stopping all, creating *)



Lemma stopAgent_returns_registered ext id w :
  is_Some (agents w !! id) -> fst (stopAgent ext id w) = inr tt.
Proof. intros [a Ha]. by rewrite (stopAgent_registered _ _ _ _ Ha). Qed.






(** X20. Interval handles identify agents: in a reachable world no two
    agents share a handle, every recorded handle is live in the host's
    table for that very agent, and every handle in use lies below the next
    one to be given out, so a new interval never reuses a live handle. *)
Theorem interval_handles_unique w id1 id2 h :
  reachable w ->
  decisionIntervals w !! id1 = Some h ->
  decisionIntervals w !! id2 = Some h ->
  id1 = id2 /\ timers w !! h = Some id1 /\ (h < nextHandle w)%positive.
Proof.
  intros (_ & _ & H3 & H4)%reachable_consistent Hh1 Hh2. simpl in *.
  apply H3 in Hh1. apply H3 in Hh2.
  split; [congruence|]. split; [done|]. by eapply H4.
Qed.

Lemma interval_handles_unique_witness :
  "agent_1_abc" = "agent_1_abc"
  /\ timers busy_world !! 1%positive = Some "agent_1_abc"
  /\ (1 < nextHandle busy_world)%positive.
Proof.
  apply (interval_handles_unique busy_world "agent_1_abc" "agent_1_abc" 1
           reachable_busy_world); by vm_compute.
Defined.





(** X22. [createAgent] fails only when the key store refuses the new key,
    and then nothing has changed.  Otherwise it returns the agent it
    registered: stopped, with a log of exactly one "created" entry, bound to
    a new ledger wallet of balance 0 without tokens; all other agents and
    wallets and the whole schedule are as before, and [getAgent] finds the
    agent under its id. *)
Theorem createAgent_effect ext cfg w :
  (forall msg, storeKey ext = inl msg ->
     createAgent ext cfg w = (inl (External msg), w))
  /\ (storeKey ext = inr tt ->
      let agent :=
        {| agent_id := new_agent_id ext; walletPublicKey := generatedKey ext;
           strategy := cfg; status := Stopped;
           activityLog := [created_entry ext cfg] |} in
      let w' := snd (createAgent ext cfg w) in
      fst (createAgent ext cfg w) = inr agent
      /\ agents w' = <[new_agent_id ext := agent]> (agents w)
      /\ wallets w'
         = <[generatedKey ext :=
               {| publicKey := generatedKey ext; createdAt := now ext;
                  balance := 0; tokenBalances := [] |}]> (wallets w)
      /\ activeAgentIds w' = activeAgentIds w
      /\ decisionIntervals w' = decisionIntervals w
      /\ timers w' = timers w
      /\ fst (getAgent (new_agent_id ext) w') = inr (Some agent)).
Proof.
  split.
  - intros msg Hstore. unfold createAgent, createWallet.
    by rewrite run_bind, run_bind, Hstore.
  - intros Hstore agent w'. subst agent w'. unfold createAgent.
    rewrite (bind_ok _ _ _ _ _ (createWallet_ok _ _ Hstore)).
    rewrite bind_modify.
    erewrite bind_ok; last first.
    { apply logActivity_registered. simpl. apply lookup_insert_eq. }
    unfold gets, getAgent. simpl.
    rewrite insert_insert_eq, !lookup_insert_eq. done.
Qed.

Lemma createAgent_effect_witness :
  fst (createAgent (outside 1 100 1) default_strategy initial_world)
  = inr {| agent_id := new_agent_id (outside 1 100 1);
           walletPublicKey := generatedKey (outside 1 100 1);
           strategy := default_strategy; status := Stopped;
           activityLog := [created_entry (outside 1 100 1)
                             default_strategy] |}.
Proof.
  by apply (proj2 (createAgent_effect (outside 1 100 1) default_strategy
                     initial_world)).
Defined.

(** ** The market data generator *)

Lemma clamp_bounds x : (50 <= Qmax 50 (Qmin 150 x))%Q /\ (Qmax 50 (Qmin 150 x) <= 150)%Q.
Proof.
  split; [apply Q.le_max_l|].
  apply Q.max_lub; [done | apply Q.le_min_l].
Qed.

Lemma generateNext_price date d g :
  exists x,
    currentPrice (snd (generateNext date d g)) = Qmax 50 (Qmin 150 x)
    /\ price (fst (generateNext date d g))
       = (inject_Z (JSMath.round (Qmax 50 (Qmin 150 x) * 100)) / 100)%Q.
Proof. unfold generateNext. eexists. split; reflexivity. Qed.

Lemma round_close (p : Q) :
  (inject_Z (JSMath.round (p * 100)) / 100 - p <= 1#200)%Q
  /\ (p - inject_Z (JSMath.round (p * 100)) / 100 <= 1#200)%Q.
Proof.
  unfold JSMath.round.
  pose proof (Qfloor_le (p * 100 + (1#2))) as Hlo.
  pose proof (Qlt_floor (p * 100 + (1#2))) as Hhi.
  rewrite inject_Z_plus in Hhi.
  set (z := inject_Z (Qfloor (p * 100 + (1 # 2)))) in *.
  assert (z / 100 == z * (1#100))%Q as -> by (by field).
  change (inject_Z 1) with 1%Q in Hhi.
  split; lra.
Qed.

Lemma round_bounds (p : Q) :
  (50 <= p)%Q -> (p <= 150)%Q ->
  (50 <= inject_Z (JSMath.round (p * 100)) / 100)%Q
  /\ (inject_Z (JSMath.round (p * 100)) / 100 <= 150)%Q.
Proof.
  intros Hlo Hhi. unfold JSMath.round.
  assert (5000 <= Qfloor (p * 100 + (1#2)) <= 15000)%Z as [Hz1 Hz2].
  { split.
    - rewrite <- (Qfloor_Z 5000). apply Qfloor_resp_le.
      change (inject_Z 5000) with 5000%Q. lra.
    - change 15000%Z with (Qfloor (15000 + (1#2))).
      apply Qfloor_resp_le. lra. }
  rewrite Zle_Qle in Hz1, Hz2.
  set (z := inject_Z (Qfloor (p * 100 + (1 # 2)))) in *.
  change (inject_Z 5000) with 5000%Q in Hz1.
  change (inject_Z 15000) with 15000%Q in Hz2.
  assert (z / 100 == z * (1#100))%Q as -> by (by field).
  split; lra.
Qed.

(** X23. Every tick is priced within [50, 150], whatever the generator's
    state and whatever [Math.random] returns: the generator's price is
    clamped on each call, and the emitted price is that price rounded to
    two decimals, at most 0.005 away from it. *)
Theorem tick_price_in_bounds date d g :
  (50 <= currentPrice (snd (generateNext date d g)))%Q
  /\ (currentPrice (snd (generateNext date d g)) <= 150)%Q
  /\ (50 <= price (fst (generateNext date d g)))%Q
  /\ (price (fst (generateNext date d g)) <= 150)%Q
  /\ (price (fst (generateNext date d g))
      - currentPrice (snd (generateNext date d g)) <= 1#200)%Q
  /\ (currentPrice (snd (generateNext date d g))
      - price (fst (generateNext date d g)) <= 1#200)%Q
  /\ exists cents : Z,
       price (fst (generateNext date d g)) = (inject_Z cents / 100)%Q.
Proof.
  destruct (generateNext_price date d g) as (x & -> & ->).
  destruct (clamp_bounds x) as [Hlo Hhi].
  destruct (round_bounds _ Hlo Hhi) as [? ?].
  destruct (round_close (Qmax 50 (Qmin 150 x))) as [? ?].
  repeat split; try done. eauto.
Qed.

Lemma floor_scaled r (n : Z) :
  in_unit_interval r -> (0 < n)%Z ->
  (0 <= Qfloor (r * inject_Z n) < n)%Z.
Proof.
  intros [Hlo Hhi] Hn.
  assert (0 < inject_Z n)%Q as HnQ.
  { change 0%Q with (inject_Z 0). by rewrite <- Zlt_Qlt. }
  split.
  - change 0%Z with (Qfloor 0). apply Qfloor_resp_le.
    apply Qmult_le_0_compat; [done | by apply Qlt_le_weak].
  - rewrite Zlt_Qlt. eapply Qle_lt_trans; [apply Qfloor_le|].
    rewrite <- (Qmult_1_l (inject_Z n)) at 2.
    by apply Qmult_lt_compat_r.
Qed.

(** X24. With [Math.random] in [0, 1), every tick has a volume of at least
    1000 and below 10000. *)
Theorem tick_volume_in_bounds date d g :
  in_unit_interval (draw_volume d) ->
  (1000 <= volume (fst (generateNext date d g)) < 10000)%N.
Proof.
  intros Hd. unfold generateNext. cbn [fst volume]. unfold JSMath.floor.
  pose proof (floor_scaled _ 9000 Hd eq_refl) as Hf.
  change (inject_Z 9000) with 9000%Q in Hf. lia.
Qed.

Lemma tick_volume_in_bounds_witness :
  (1000 <= volume (fst (generateNext 0
                          {| draw_trend := 1#2; draw_duration := 1#2;
                             draw_price := 1#2; draw_volume := 1#2 |}
                          marketDataGenerator)) < 10000)%N.
Proof.
  apply (tick_volume_in_bounds 0
           {| draw_trend := 1#2; draw_duration := 1#2;
              draw_price := 1#2; draw_volume := 1#2 |} marketDataGenerator).
  split; done.
Defined.

Lemma generateNext_countdown date d g :
  trendDuration (snd (generateNext date d g))
  = (if (maxTrendDuration g <=? trendDuration g + 1)%Z then 0
     else trendDuration g + 1)%Z
  /\ maxTrendDuration (snd (generateNext date d g))
     = (if (maxTrendDuration g <=? trendDuration g + 1)%Z
        then Qfloor (draw_duration d * 10) + 5
        else maxTrendDuration g)%Z.
Proof.
  unfold generateNext. cbn [set_trendDuration maxTrendDuration trendDuration].
  by destruct (maxTrendDuration g <=? trendDuration g + 1)%Z.
Qed.

Lemma generateNext_in_range date d g :
  generator_in_range g ->
  in_unit_interval (draw_duration d) ->
  generator_in_range (snd (generateNext date d g)).
Proof.
  intros (_ & _ & Htd & Hmax) Hd.
  destruct (generateNext_price date d g) as (x & Hp & _).
  destruct (generateNext_countdown date d g) as [Ht Hm].
  pose proof (floor_scaled _ 10 Hd eq_refl) as Hf.
  change (inject_Z 10) with 10%Q in Hf.
  unfold generator_in_range. rewrite Hp, Ht, Hm.
  split; [apply clamp_bounds|]. split; [apply clamp_bounds|].
  destruct (maxTrendDuration g <=? trendDuration g + 1)%Z eqn:E; lia.
Qed.

(** X25. Started from the constructed generator and fed draws in [0, 1),
    the generator stays in range over any number of ticks: its price is
    within [50, 150], the trend countdown is below its limit, and the limit
    never exceeds 14, so a trend is resampled after at most 14 ticks. *)
Theorem generator_stays_in_range inputs :
  Forall (fun i => in_unit_interval (draw_duration (snd i))) inputs ->
  generator_in_range (snd (generate_all inputs marketDataGenerator))
  /\ length (fst (generate_all inputs marketDataGenerator)) = length inputs.
Proof.
  assert (generator_in_range marketDataGenerator) as Hinit.
  { unfold generator_in_range. simpl. repeat split; (done || lia). }
  revert Hinit. generalize marketDataGenerator.
  induction inputs as [|[date d] rest IH]; intros g Hg Hall; [done|].
  inversion Hall as [|? ? Hd Hrest]; subst. cbn [generate_all fst snd].
  destruct (IH (snd (generateNext date d g))) as [? ?]; [|done|].
  - by apply generateNext_in_range.
  - split; [done|]. simpl. by f_equal.
Qed.

Lemma generator_stays_in_range_witness :
  generator_in_range
    (snd (generate_all
            [(0%N, {| draw_trend := 1#2; draw_duration := 1#2;
                      draw_price := 1#2; draw_volume := 1#2 |});
             (1%N, {| draw_trend := 9#10; draw_duration := 0;
                      draw_price := 0; draw_volume := 0 |})]
            marketDataGenerator))
  /\ length (fst (generate_all
            [(0%N, {| draw_trend := 1#2; draw_duration := 1#2;
                      draw_price := 1#2; draw_volume := 1#2 |});
             (1%N, {| draw_trend := 9#10; draw_duration := 0;
                      draw_price := 0; draw_volume := 0 |})]
            marketDataGenerator)) = 2.
Proof.
  apply (generator_stays_in_range
           [(0%N, {| draw_trend := 1#2; draw_duration := 1#2;
                     draw_price := 1#2; draw_volume := 1#2 |});
            (1%N, {| draw_trend := 9#10; draw_duration := 0;
                     draw_price := 0; draw_volume := 0 |})]).
  repeat constructor; done.
Defined.

Lemma generateNext_move date d g :
  exists g1,
    currentPrice g1 = currentPrice g
    /\ volatility g1 = volatility g
    /\ trendStrength g1 = trendStrength g
    /\ trend (fst (generateNext date d g)) = currentTrend g1
    /\ currentPrice (snd (generateNext date d g))
       = Qmax 50 (Qmin 150
           (currentPrice g1 *
            (1 + match currentTrend g1 with
                 | Up => trendStrength g1 + draw_price d * volatility g1
                 | Down => - trendStrength g1 - draw_price d * volatility g1
                 | Sideways => (draw_price d - (1#2)) * volatility g1 * 2
                 end)))%Q.
Proof.
  unfold generateNext.
  cbn [set_trendDuration maxTrendDuration trendDuration].
  destruct (maxTrendDuration g <=? trendDuration g + 1)%Z.
  - exists (set_trendDuration
              (updateTrend d (set_trendDuration g (trendDuration g + 1))) 0).
    repeat split; reflexivity.
  - exists (set_trendDuration g (trendDuration g + 1)).
    repeat split; reflexivity.
Qed.

(** X26. A tick labelled up never lowers the generator's price and a tick
    labelled down never raises it, for a price within [50, 150], volatility
    and trend strength that are not negative, and a draw that is not
    negative (the clamp can only hold the price at a bound). *)
Theorem trend_moves_price_its_way date d g :
  (50 <= currentPrice g)%Q -> (currentPrice g <= 150)%Q ->
  (0 <= volatility g)%Q -> (0 <= trendStrength g)%Q ->
  (0 <= draw_price d)%Q ->
  (trend (fst (generateNext date d g)) = Up ->
   (currentPrice g <= currentPrice (snd (generateNext date d g)))%Q)
  /\ (trend (fst (generateNext date d g)) = Down ->
      (currentPrice (snd (generateNext date d g)) <= currentPrice g)%Q).
Proof.
  intros Hlo Hhi Hvol Hts Hr.
  destruct (generateNext_move date d g) as (g1 & Hp & Hv & Hs & -> & ->).
  rewrite Hp, Hv, Hs.
  pose proof (Qmult_le_0_compat _ _ Hr Hvol) as Hrv.
  set (rv := (draw_price d * volatility g)%Q) in *.
  split; intros ->.
  - eapply Qle_trans; [|apply Q.le_max_r].
    apply Q.min_glb; [done|].
    assert (0 <= currentPrice g * (trendStrength g + rv))%Q.
    { apply Qmult_le_0_compat; lra. }
    lra.
  - apply Q.max_lub; [done|].
    eapply Qle_trans; [apply Q.le_min_r|].
    assert (0 <= currentPrice g * (trendStrength g + rv))%Q.
    { apply Qmult_le_0_compat; lra. }
    lra.
Qed.

Lemma trend_moves_price_its_way_witness :
  (trend (fst (generateNext 0
                 {| draw_trend := 1#10; draw_duration := 1#2;
                    draw_price := 1#2; draw_volume := 1#2 |}
                 (set_trendDuration marketDataGenerator 9))) = Up ->
   (currentPrice (set_trendDuration marketDataGenerator 9)
    <= currentPrice (snd (generateNext 0
                            {| draw_trend := 1#10; draw_duration := 1#2;
                               draw_price := 1#2; draw_volume := 1#2 |}
                            (set_trendDuration marketDataGenerator 9))))%Q)
  /\ (trend (fst (generateNext 0
                    {| draw_trend := 1#10; draw_duration := 1#2;
                       draw_price := 1#2; draw_volume := 1#2 |}
                    (set_trendDuration marketDataGenerator 9))) = Down ->
      (currentPrice (snd (generateNext 0
                            {| draw_trend := 1#10; draw_duration := 1#2;
                               draw_price := 1#2; draw_volume := 1#2 |}
                            (set_trendDuration marketDataGenerator 9)))
       <= currentPrice (set_trendDuration marketDataGenerator 9))%Q).
Proof.
  apply (trend_moves_price_its_way 0
           {| draw_trend := 1#10; draw_duration := 1#2;
              draw_price := 1#2; draw_volume := 1#2 |}
           (set_trendDuration marketDataGenerator 9)); by vm_compute.
Defined.

(** The tenth tick resamples the trend: with a trend draw of 0.1 it turns
    up and the price rises from 100 to 104.5. *)
Example tenth_tick_turns_up :
  let r := generateNext 0
             {| draw_trend := 1#10; draw_duration := 1#2;
                draw_price := 1#2; draw_volume := 1#2 |}
             (set_trendDuration marketDataGenerator 9) in
  trend (fst r) = Up /\ (price (fst r) == 1045#10)%Q
  /\ volume (fst r) = 5500%N /\ maxTrendDuration (snd r) = 10%Z
  /\ trendDuration (snd r) = 0%Z.
Proof. by vm_compute. Qed.

(** ** The agent list of the user interface *)

(** X27. The reducer's list operations: UPDATE_AGENT and LOG_ACTIVITY keep
    the agents and their order (the ids are unchanged); LOG_ACTIVITY makes
    the log of every agent with the id one entry longer and never evicts,
    so this copy of the log is not capped at 100; REMOVE_AGENT keeps exactly
    the agents with another id; and adding an agent whose id is new and
    then removing that id gives the list back. *)
Theorem reducer_list_operations state payload id activity :
  agent_id <$> ui_agents (agentReducer state (UPDATE_AGENT payload))
  = agent_id <$> ui_agents state
  /\ agent_id <$> ui_agents (agentReducer state (LOG_ACTIVITY id activity))
     = agent_id <$> ui_agents state
  /\ (length ∘ activityLog)
       <$> ui_agents (agentReducer state (LOG_ACTIVITY id activity))
     = (fun a => if String.eqb (agent_id a) id
                 then S (length (activityLog a))
                 else length (activityLog a)) <$> ui_agents state
  /\ (forall a, a ∈ ui_agents (agentReducer state (REMOVE_AGENT id))
                <-> agent_id a <> id /\ a ∈ ui_agents state)
  /\ (agent_id payload ∉ agent_id <$> ui_agents state ->
      ui_agents (agentReducer (agentReducer state (ADD_AGENT payload))
                   (REMOVE_AGENT (agent_id payload)))
      = ui_agents state).
Proof.
  split; [|split; [|split; [|split]]]; simpl.
  - rewrite <- list_fmap_compose. apply list_fmap_ext.
    intros _ a _. simpl.
    destruct (String.eqb_spec (agent_id a) (agent_id payload)); congruence.
  - rewrite <- list_fmap_compose. apply list_fmap_ext.
    intros _ a _. simpl. by destruct (String.eqb (agent_id a) id).
  - rewrite <- list_fmap_compose. apply list_fmap_ext.
    intros _ a _. simpl. destruct (String.eqb (agent_id a) id); simpl; [|done].
    rewrite length_app. simpl. lia.
  - intros a. by rewrite list_elem_of_filter.
  - intros Hfresh. rewrite filter_app.
    rewrite (filter_cons_False _ payload []) by (intros H; by apply H).
    rewrite filter_nil, app_nil_r.
    induction (ui_agents state) as [|a l IH]; [done|].
    rewrite fmap_cons in Hfresh. apply not_elem_of_cons in Hfresh as [Hne Hl].
    rewrite filter_cons_True by congruence. by rewrite IH.
Qed.

Lemma reducer_list_operations_witness :
  ui_agents (agentReducer
               (agentReducer
                  {| ui_agents := []; ui_activeAgentIds := [];
                     loading := false; error := None |}
                  (ADD_AGENT (active_agent "a1")))
               (REMOVE_AGENT (agent_id (active_agent "a1"))))
  = ui_agents {| ui_agents := []; ui_activeAgentIds := [];
                 loading := false; error := None |}.
Proof.
  apply (reducer_list_operations
           {| ui_agents := []; ui_activeAgentIds := [];
              loading := false; error := None |}
           (active_agent "a1") "a1" (started_entry (outside 1 100 1))).
  simpl. apply not_elem_of_nil.
Defined.

(** ** Strategy, controller and executor together *)




(** With a negative minimum balance and an empty wallet the strategy
    proposes a buy of 0, the controller turns it into 0.1, and the executor
    refuses it. *)
Example empty_wallet_buy_is_refused :
  let cfg := {| strategy_type := SimpleTrader;
                parameters := {| param_buyThreshold := None;
                                 param_sellThreshold := None;
                                 param_minBalance := Some (-1)%Q |} |} in
  let w := snd (startAgent (outside 2 85 0) "agent_1_abc"
                  (snd (createAgent (outside 1 100 0) cfg initial_world))) in
  (decision <$> last (log_of w "agent_1_abc"))
  = Some (Text "Trade failed: Swap execution failed: Failed to construct swap instruction: Invalid accounts for swap").
Proof. by vm_compute. Qed.
